(** * vscode-chrome-debug: protocol session, logger and Chrome launcher

  A shallow embedding of
    - [WebKitDebugSession] and [Logger] (the protocol session and its
      console logger), and
    - [ChromeDebugAdapter] ([launch], [disconnect], [clearEverything]),
  together with the properties of the dispatch, logging and process
  life-cycle layer.

  JavaScript code runs in a state monad with exceptions: a computation
  takes the world and completes either normally or abruptly (a thrown
  value); the effects performed before a throw are kept. *)

From Stdlib Require Import String Ascii List ZArith Bool Lia DecimalString.
Import ListNotations.

#[local] Set Warnings "-register-all".

#[local] Open Scope string_scope.
#[local] Open Scope list_scope.

(* ------------------------------------------------------------------ *)
(** ** JavaScript values *)

Module JS.

(** The values that flow through the adapter as [any]: response bodies,
    request arguments, rejection reasons and thrown values.  Numbers are
    the integral ones (printed in decimal, as JavaScript prints integers
    below 10^21); values are finite trees, so serialising one always
    succeeds. *)
Inductive Value : Type :=
| undefined
| null
| boolean (b : bool)
| number (z : Z)
| str (s : string)
| error (name message : string)          (* an Error instance *)
| array (elems : list Value)
| object (props : list (string * Value)).

Definition number_to_string (z : Z) : string :=
  NilZero.string_of_int (Z.to_int z).

(** The abstract operation ToString, which string concatenation
    ['...' + v] applies to its operand. *)
Fixpoint ToString (v : Value) : string :=
  match v with
  | undefined => "undefined"
  | null => "null"
  | boolean true => "true"
  | boolean false => "false"
  | number z => number_to_string z
  | str s => s
  | error name message =>
      if (name =? "")%string then message
      else if (message =? "")%string then name
      else name ++ ": " ++ message
  | array elems =>
      String.concat ","
        (map (fun x => match x with
                       | undefined | null => ""
                       | _ => ToString x
                       end) elems)
  | object _ => "[object Object]"
  end.

(** The TypeError raised by a member access on [undefined] or [null],
    and by the call of a member that is no function.  (The text of the
    message is the engine's own.) *)
Definition TypeError (base : Value) (member : string) : Value :=
  match base with
  | undefined | null =>
      error "TypeError"
        ("Cannot read property '" ++ member ++ "' of " ++ ToString base)
  | _ => error "TypeError" (member ++ " is not a function")%string
  end.

(** The object has an own property [key]. *)
Definition has_own (key : string) (props : list (string * Value)) : bool :=
  existsb (fun kv => (fst kv =? key)%string) props.

(** The string an object or primitive converts to through its [toString]
    method; [None] is a TypeError.  Values hold no functions, so an own
    [toString] property of an object is never callable and the conversion
    faults on it; without one, the method inherited from
    [Object.prototype] answers.  An array joins the conversions of its
    elements and faults when one of them does. *)
Fixpoint string_of (v : Value) : option string :=
  match v with
  | undefined => Some "undefined"
  | null => Some "null"
  | boolean true => Some "true"
  | boolean false => Some "false"
  | number z => Some (number_to_string z)
  | str s => Some s
  | error name message =>
      Some (if (name =? "")%string then message
            else if (message =? "")%string then name
            else (name ++ ": " ++ message)%string)
  | array elems =>
      option_map (String.concat ",")
        ((fix each (l : list Value) : option (list string) :=
            match l with
            | [] => Some []
            | x :: rest =>
                match
                  match x with
                  | undefined | null => Some ""
                  | _ => string_of x
                  end,
                  each rest
                with
                | Some s, Some ss => Some (s :: ss)
                | _, _ => None
                end
            end) elems)
  | object props =>
      if has_own "toString" props then None else Some "[object Object]"
  end.

(** [v.toString()]: [None] is the TypeError of the call, on [undefined]
    and [null], which have no members, and on a value whose [toString]
    cannot be called or faults. *)
Definition toString (v : Value) : option string :=
  match v with
  | undefined | null => None
  | _ => string_of v
  end.

Fixpoint lookup (key : string) (props : list (string * Value)) : Value :=
  match props with
  | [] => undefined
  | (k, v) :: rest => if (k =? key)%string then v else lookup key rest
  end.

(** [v.message]: [None] is the TypeError of a property read on
    [undefined] or [null]; a value without that property reads as
    [undefined]. *)
Definition get_message (v : Value) : option Value :=
  match v with
  | undefined | null => None
  | error _ message => Some (str message)
  | object props => Some (lookup "message" props)
  | _ => Some undefined
  end.

(** [if (s) ...] on an optional string: [undefined] and [''] are falsy;
    a truthy string is handed to the branch. *)
Definition truthy (s : option string) : option string :=
  match s with
  | Some s => if (s =? "")%string then None else Some s
  | None => None
  end.

(** [n || d] on an optional number: [undefined] and [0] are falsy. *)
Definition number_or (n : option Z) (d : Z) : Z :=
  match n with
  | Some z => if (z =? 0)%Z then d else z
  | None => d
  end.

End JS.

(* ------------------------------------------------------------------ *)
(** ** Computations: state and exceptions *)

Module Eff.

Inductive Completion (W A : Type) : Type :=
| Normal (a : A) (w : W)
| Thrown (e : JS.Value) (w : W).
Arguments Normal {W A} a w.
Arguments Thrown {W A} e w.

Definition M (W A : Type) : Type := W -> Completion W A.

Definition ret {W A} (a : A) : M W A := fun w => Normal a w.

Definition throw {W A} (e : JS.Value) : M W A := fun w => Thrown e w.

Definition bind {W A B} (m : M W A) (k : A -> M W B) : M W B :=
  fun w => match m w with
           | Normal a w' => k a w'
           | Thrown e w' => Thrown e w'
           end.

(** [try { m } catch (e) { h e }] *)
Definition try_catch {W A} (m : M W A) (h : JS.Value -> M W A) : M W A :=
  fun w => match m w with
           | Normal a w' => Normal a w'
           | Thrown e w' => h e w'
           end.

Definition modify {W} (f : W -> W) : M W unit := fun w => Normal tt (f w).

Definition world_of {W A} (c : Completion W A) : W :=
  match c with
  | Normal _ w => w
  | Thrown _ w => w
  end.

End Eff.

Declare Scope js_scope.
Delimit Scope js_scope with js.
Notation "x <- m ;; k" := (Eff.bind m (fun x => k))
(at level 61, m at next level, right associativity) : js_scope.
Notation "m ;; k" := (Eff.bind m (fun _ => k))
(at level 61, right associativity) : js_scope.

#[local] Open Scope js_scope.

(* ------------------------------------------------------------------ *)
(** ** Protocol messages *)

Module DebugProtocol.

Record Request : Type := {
  seq : Z;
  command : string;
  arguments : JS.Value
}.

Record Event : Type := {
  event : string;
  event_body : JS.Value
}.

(** [ErrorDestination] of common/debugSession. *)
Inductive ErrorDestination : Type := User | Telemetry.

(** The structured error an error response carries. *)
Record ErrorMessage : Type := {
  code : Z;
  format : string;
  variables : JS.Value;
  destination : ErrorDestination
}.

Record Response : Type := {
  request_seq : Z;
  response_command : string;
  success : bool;
  message : option string;
  body : JS.Value;
  failure : option ErrorMessage
}.

(** Modelled from the spec: the constructor of [Response]
    (common/v8Protocol is not among the sources).  A fresh response is
    correlated to its request by the request's id and starts out
    successful, with no body and no message. *)
Definition new_Response (request : Request) : Response :=
  {| request_seq := seq request;
     response_command := command request;
     success := true;
     message := None;
     body := JS.undefined;
     failure := None |}.

Definition with_body (b : JS.Value) (r : Response) : Response :=
  {| request_seq := request_seq r;
     response_command := response_command r;
     success := success r;
     message := message r;
     body := b;
     failure := failure r |}.

Definition with_message (m : string) (r : Response) : Response :=
  {| request_seq := request_seq r;
     response_command := response_command r;
     success := success r;
     message := Some m;
     body := body r;
     failure := failure r |}.

Definition with_success (s : bool) (r : Response) : Response :=
  {| request_seq := request_seq r;
     response_command := response_command r;
     success := s;
     message := message r;
     body := body r;
     failure := failure r |}.

Definition with_failure (f : ErrorMessage) (r : Response) : Response :=
  {| request_seq := request_seq r;
     response_command := response_command r;
     success := success r;
     message := message r;
     body := body r;
     failure := Some f |}.

End DebugProtocol.

(* ------------------------------------------------------------------ *)
(** ** The protocol session and its logger *)

Module Session.

Import Eff DebugProtocol.

(** An instance of [Logger]. *)
Record Logger : Type := { _isServer : bool }.

(** The closures the session hands to the runtime. *)
Inductive Callback : Type :=
| Logger_tick.                       (* () => Logger.log('-') *)

(** What leaves the process, oldest first. *)
Inductive Output : Type :=
| console_log (line : string)               (* console.log *)
| to_client_response (r : Response)         (* the transport, base sendResponse *)
| to_client_event (e : Event)               (* the transport, base sendEvent *)
| uncaught (e : JS.Value).                  (* a throw that nothing catches *)

Definition PromiseId : Type := nat.

(** The two continuations [sendResponseAsync] attaches to a promise; they
    close over the request and the response object. *)
Record Reaction : Type := {
  reaction_request : Request;
  reaction_response : Response
}.

Record World : Type := {
  ALLOW_LOGGING : bool;                        (* Logger.ALLOW_LOGGING *)
  _logger : option Logger;                     (* Logger._logger *)
  intervals : list (Callback * Z);             (* setInterval registrations *)
  reactions : list (PromiseId * Reaction);     (* then-reactions not yet run *)
  out : list Output
}.

(** The statics as the class declares them, before any session exists. *)
Definition initial_world : World :=
  {| ALLOW_LOGGING := true;
     _logger := None;
     intervals := [];
     reactions := [];
     out := [] |}.

Definition emit (o : Output) : M World unit :=
  modify (fun w =>
    {| ALLOW_LOGGING := ALLOW_LOGGING w;
       _logger := _logger w;
       intervals := intervals w;
       reactions := reactions w;
       out := out w ++ [o] |}).

Definition set_logger (l : Logger) : M World unit :=
  modify (fun w =>
    {| ALLOW_LOGGING := ALLOW_LOGGING w;
       _logger := Some l;
       intervals := intervals w;
       reactions := reactions w;
       out := out w |}).

Definition setInterval (cb : Callback) (ms : Z) : M World unit :=
  modify (fun w =>
    {| ALLOW_LOGGING := ALLOW_LOGGING w;
       _logger := _logger w;
       intervals := intervals w ++ [(cb, ms)];
       reactions := reactions w;
       out := out w |}).

Definition set_reactions (rs : list (PromiseId * Reaction)) (w : World) : World :=
  {| ALLOW_LOGGING := ALLOW_LOGGING w;
     _logger := _logger w;
     intervals := intervals w;
     reactions := rs;
     out := out w |}.

(** [responseP.then(onFulfilled, onRejected)] *)
Definition then_ (p : PromiseId) (r : Reaction) : M World unit :=
  modify (fun w => set_reactions (reactions w ++ [(p, r)]) w).

(** *** Logger *)

(** [Logger.prototype._log] *)
Definition Logger__log (self : Logger) (msg : string) : M World unit :=
  fun w =>
    if _isServer self && ALLOW_LOGGING w then emit (console_log msg) w
    else ret tt w.

(** [Logger.log] *)
Definition Logger_log (msg : string) : M World unit :=
  fun w =>
    match _logger w with
    | Some l => Logger__log l msg w
    | None => ret tt w
    end.

(** [Logger.init] *)
Definition Logger_init (isServer : bool) : M World unit :=
  set_logger {| _isServer := isServer |} ;;
  setInterval Logger_tick 1000.

(** The runtime calling a registered callback. *)
Definition call (cb : Callback) : M World unit :=
  match cb with
  | Logger_tick => Logger_log "-"
  end.

(** [msgs.forEach(m => Logger.log(m))]: any number of invocations. *)
Fixpoint Logger_log_all (msgs : list string) : M World unit :=
  match msgs with
  | [] => ret tt
  | m :: rest => Logger_log m ;; Logger_log_all rest
  end.

(** *** WebKitDebugSession *)

(** [JSON.stringify], as the runtime provides it, at the three types the
    session applies it to (its result as a template literal shows it). *)
Class Runtime : Type := {
  JSON_stringify : JS.Value -> string;
  JSON_stringify_response : Response -> string;
  JSON_stringify_event : Event -> string
}.

(** How a promise settles. *)
Inductive Settlement : Type :=
| fulfilled (body : JS.Value)
| rejected (e : JS.Value).

(** What a call of the adapter proxy's [dispatchRequest] does: it returns
    a promise, or throws. *)
Inductive Dispatched : Type :=
| promise (p : PromiseId)
| throws (e : JS.Value).

(** The adapter proxy (adapter/adapterProxy is not among the sources): the
    session only ever calls its [dispatchRequest]. *)
Record AdapterProxy : Type := {
  proxy_dispatchRequest : Request -> Dispatched
}.

Record WebKitDebugSession : Type := {
  _adapterProxy : AdapterProxy
}.

(** [e.toString()] *)
Definition toString (e : JS.Value) : M World string :=
  match JS.toString e with
  | Some s => ret s
  | None => throw (JS.TypeError e "toString")
  end.

(** [e.message] *)
Definition get_message (e : JS.Value) : M World JS.Value :=
  match JS.get_message e with
  | Some v => ret v
  | None => throw (JS.TypeError e "message")
  end.

(** [this._adapterProxy.dispatchRequest(request)] *)
Definition AdapterProxy_dispatchRequest
    (proxy : AdapterProxy) (request : Request) : M World PromiseId :=
  match proxy_dispatchRequest proxy request with
  | promise p => ret p
  | throws e => throw e
  end.

(** Modelled from the spec: [sendResponse] of the base [DebugSession]
    (common/debugSession is not among the sources) hands the response to
    the transport. *)
Definition super_sendResponse (response : Response) : M World unit :=
  emit (to_client_response response).

(** Modelled from the spec: [sendEvent] of the base [DebugSession]
    (common/debugSession is not among the sources) hands the event to the
    transport. *)
Definition super_sendEvent (ev : Event) : M World unit :=
  emit (to_client_event ev).

(** [sendEvent]: overloaded to log. *)
Definition sendEvent `{Runtime} (ev : Event) : M World unit :=
  Logger_log ("To client: " ++ JSON_stringify_event ev) ;;
  super_sendEvent ev.

(** [sendResponse]: overloaded to log. *)
Definition sendResponse `{Runtime} (response : Response) : M World unit :=
  Logger_log ("To client: " ++ JSON_stringify_response response) ;;
  super_sendResponse response.

(** Modelled from the spec: [sendErrorResponse] of the base
    [DebugSession] (common/debugSession is not among the sources) marks
    the response as failed, attaches the error (its code, format,
    variables and destination) and sends it with [sendResponse], so that
    it is logged like every outbound response. *)
Definition sendErrorResponse `{Runtime} (response : Response) (code : Z)
    (format : string) (variables : JS.Value) (dest : ErrorDestination)
    : M World unit :=
  sendResponse
    (with_failure {| code := code; format := format;
                     variables := variables; destination := dest |}
       (with_success false response)).

(** The first continuation of [sendResponseAsync]. *)
Definition onFulfilled `{Runtime} (response : Response) (body : JS.Value)
    : M World unit :=
  sendResponse (with_body body response).

(** The second continuation of [sendResponseAsync]. *)
Definition onRejected `{Runtime} (request : Request) (response : Response)
    (e : JS.Value) : M World unit :=
  eStr <- toString e ;;
  if (eStr =? "unknowncommand")%string then
    sendErrorResponse response 1014 "Unrecognized request" JS.null Telemetry
  else
    (s <- toString e ;; Logger_log s) ;;
    response <-
      (if (command request =? "evaluate")%string then
         s <- toString e ;; ret (with_message s response)
       else
         s <- toString e ;;
         ret (with_message ("[webkit-debug-adapter] " ++ s) response)) ;;
    sendResponse (with_success false response).

(** [sendResponseAsync] *)
Definition sendResponseAsync (request : Request) (response : Response)
    (responseP : PromiseId) : M World unit :=
  then_ responseP
    {| reaction_request := request; reaction_response := response |}.

(** [dispatchRequest] *)
Definition dispatchRequest `{Runtime} (self : WebKitDebugSession)
    (request : Request) : M World unit :=
  let response := new_Response request in
  try_catch
    (Logger_log ("From client: " ++ command request ++ "("
                 ++ JSON_stringify (arguments request) ++ ")") ;;
     responseP <- AdapterProxy_dispatchRequest (_adapterProxy self) request ;;
     sendResponseAsync request response responseP)
    (fun e =>
       m <- get_message e ;;
       sendErrorResponse response 1104
         "Exception while processing request (exception: {_exception})"
         (JS.object [("_exception", m)]) Telemetry).

(** The constructor: [Logger.init(isServer)], then the adapter proxy. *)
Definition new_WebKitDebugSession (isServer : bool) (proxy : AdapterProxy)
    : M World WebKitDebugSession :=
  Logger_init isServer ;;
  ret {| _adapterProxy := proxy |}.

(** *** The runtime: jobs run to completion, one after the other *)

(** A job of the event loop: a throw that escapes it is caught by
    nothing of the session. *)
Definition job (m : M World unit) (w : World) : World :=
  match m w with
  | Normal _ w' => w'
  | Thrown e w' => world_of (emit (uncaught e) w')
  end.

Definition react `{Runtime} (o : Settlement) (r : Reaction) : M World unit :=
  match o with
  | fulfilled b => onFulfilled (reaction_response r) b
  | rejected e => onRejected (reaction_request r) (reaction_response r) e
  end.

Definition on_promise (p : PromiseId) (pr : PromiseId * Reaction) : bool :=
  Nat.eqb (fst pr) p.

(** Promise [p] settles: its reactions run, in the order they were
    attached, each as a job of its own, and are gone afterwards (a promise
    settles once). *)
Definition settle `{Runtime} (p : PromiseId) (o : Settlement) (w : World)
    : World :=
  fold_left (fun w pr => job (react o (snd pr)) w)
    (filter (on_promise p) (reactions w))
    (set_reactions (filter (fun pr => negb (on_promise p pr)) (reactions w)) w).

(** What the session is driven by. *)
Inductive Stimulus : Type :=
| client_request (request : Request)
| promise_settled (p : PromiseId) (o : Settlement)
| adapter_event (ev : Event)
| timer (cb : Callback).

Definition step `{Runtime} (self : WebKitDebugSession) (s : Stimulus)
    (w : World) : World :=
  match s with
  | client_request request => job (dispatchRequest self request) w
  | promise_settled p o => settle p o w
  | adapter_event ev => job (sendEvent ev) w
  | timer cb => job (call cb) w
  end.

Definition run `{Runtime} (self : WebKitDebugSession) (ss : list Stimulus)
    (w : World) : World :=
  fold_left (fun w s => step self s w) ss w.

(** *** Observations *)

(** The lines written to the console. *)
Fixpoint console_lines (o : list Output) : list string :=
  match o with
  | [] => []
  | console_log l :: rest => l :: console_lines rest
  | _ :: rest => console_lines rest
  end.

(** The responses handed to the transport. *)
Fixpoint responses (o : list Output) : list Response :=
  match o with
  | [] => []
  | to_client_response r :: rest => r :: responses rest
  | _ :: rest => responses rest
  end.

(** Logging is on: the logger was initialised in server mode and the
    static flag is set. *)
Definition logging_allowed (w : World) : bool :=
  match _logger w with
  | Some l => _isServer l && ALLOW_LOGGING w
  | None => false
  end.

(** The world after the outputs [os]. *)
Definition wrote (os : list Output) (w : World) : World :=
  {| ALLOW_LOGGING := ALLOW_LOGGING w;
     _logger := _logger w;
     intervals := intervals w;
     reactions := reactions w;
     out := out w ++ os |}.

(** What a [Logger.log(msg)] puts out in [w]. *)
Definition logged (w : World) (msg : string) : list Output :=
  if logging_allowed w then [console_log msg] else [].

(** A settlement the continuations can answer: a resolution with any
    body, or a rejection whose reason has a string form. *)
Definition answerable (o : Settlement) : bool :=
  match o with
  | fulfilled _ => true
  | rejected e =>
      match JS.toString e with
      | Some _ => true
      | None => false
      end
  end.

(** The reaction [dispatchRequest] attaches for [request]. *)
Definition reaction_of (request : Request) : Reaction :=
  {| reaction_request := request;
     reaction_response := new_Response request |}.

(** A computation is quiet when, with logging off, it leaves logging off
    and writes nothing to the console, however it completes. *)
Definition quiet {A : Type} (m : M World A) : Prop :=
  forall w, logging_allowed w = false ->
    logging_allowed (world_of (m w)) = false /\
    console_lines (out (world_of (m w))) = console_lines (out w).

(** The same for a step of the runtime. *)
Definition quiet_step (f : World -> World) : Prop :=
  forall w, logging_allowed w = false ->
    logging_allowed (f w) = false /\
    console_lines (out (f w)) = console_lines (out w).

(** *** What a step puts out *)

(** The events handed to the transport. *)
Fixpoint events (o : list Output) : list Event :=
  match o with
  | [] => []
  | to_client_event ev :: rest => ev :: events rest
  | _ :: rest => events rest
  end.

(** The events the adapter raises and the requests the client sends in a
    run. *)
Fixpoint events_of (ss : list Stimulus) : list Event :=
  match ss with
  | [] => []
  | adapter_event ev :: rest => ev :: events_of rest
  | _ :: rest => events_of rest
  end.

Fixpoint requests_of (ss : list Stimulus) : list Request :=
  match ss with
  | [] => []
  | client_request request :: rest => request :: requests_of rest
  | _ :: rest => requests_of rest
  end.

(** The responses correlated to the request with id [n], the
    continuations pending for it, and the requests with that id in a
    run. *)
Definition responses_to (n : Z) (o : list Output) : list Response :=
  filter (fun r => (request_seq r =? n)%Z) (responses o).

Definition pending_for (n : Z) (rs : list (PromiseId * Reaction))
    : list (PromiseId * Reaction) :=
  filter (fun pr => (request_seq (reaction_response (snd pr)) =? n)%Z) rs.

Definition requests_with (n : Z) (ss : list Stimulus) : list Request :=
  filter (fun r => (seq r =? n)%Z) (requests_of ss).

(** One when [r] is correlated to the request with id [n], else none. *)
Definition weight (n : Z) (r : Response) : nat :=
  if (request_seq r =? n)%Z then 1 else 0.

(** A run settles promise [p]. *)
Fixpoint settles (p : PromiseId) (ss : list Stimulus) : bool :=
  match ss with
  | [] => false
  | promise_settled q _ :: rest => Nat.eqb q p || settles p rest
  | _ :: rest => settles p rest
  end.

(** The console line of a [Logger.log(msg)], logging being on or off. *)
Definition log_line (on : bool) (msg : string) : list Output :=
  if on then [console_log msg] else [].

(** The output of sending [response], logging being on or off. *)
Definition send_out `{Runtime} (on : bool) (response : Response) : list Output :=
  log_line on ("To client: " ++ JSON_stringify_response response)
  ++ [to_client_response response].

(** The output of the continuations attached for a request when its
    promise settles. *)
Definition react_out `{Runtime} (on : bool) (o : Settlement) (rx : Reaction)
    : list Output :=
  match o with
  | fulfilled b => send_out on (with_body b (reaction_response rx))
  | rejected e =>
      match JS.toString e with
      | None => [uncaught (JS.TypeError e "toString")]
      | Some s =>
          if (s =? "unknowncommand")%string then
            send_out on
              (with_failure
                 {| code := 1014; format := "Unrecognized request";
                    variables := JS.null; destination := Telemetry |}
                 (with_success false (reaction_response rx)))
          else
            log_line on s
            ++ send_out on
                 (with_success false
                    (with_message
                       (if (command (reaction_request rx) =? "evaluate")%string
                        then s else "[webkit-debug-adapter] " ++ s)
                       (reaction_response rx)))
      end
  end.

(** The output of dispatching [request], after the line that logs it. *)
Definition dispatch_out `{Runtime} (on : bool) (self : WebKitDebugSession)
    (request : Request) : list Output :=
  match proxy_dispatchRequest (_adapterProxy self) request with
  | promise _ => []
  | throws e =>
      match JS.get_message e with
      | None => [uncaught (JS.TypeError e "message")]
      | Some m =>
          send_out on
            (with_failure
               {| code := 1104;
                  format :=
                    "Exception while processing request (exception: {_exception})";
                  variables := JS.object [("_exception", m)];
                  destination := Telemetry |}
               (with_success false (new_Response request)))
      end
  end.

(** The reactions dispatching [request] attaches. *)
Definition dispatch_reactions (self : WebKitDebugSession) (request : Request)
    : list (PromiseId * Reaction) :=
  match proxy_dispatchRequest (_adapterProxy self) request with
  | promise p => [(p, reaction_of request)]
  | throws _ => []
  end.

(** The line that logs an inbound request. *)
Definition from_client `{Runtime} (request : Request) : string :=
  "From client: " ++ command request ++ "("
  ++ JSON_stringify (arguments request) ++ ")".

(** The output of one step. *)
Definition step_out `{Runtime} (self : WebKitDebugSession) (s : Stimulus)
    (w : World) : list Output :=
  let on := logging_allowed w in
  match s with
  | client_request request =>
      log_line on (from_client request) ++ dispatch_out on self request
  | promise_settled p o =>
      flat_map (fun pr => react_out on o (snd pr))
        (filter (on_promise p) (reactions w))
  | adapter_event ev =>
      log_line on ("To client: " ++ JSON_stringify_event ev)
      ++ [to_client_event ev]
  | timer Logger_tick => log_line on "-"
  end.

(** The reactions pending after one step. *)
Definition step_reactions (self : WebKitDebugSession) (s : Stimulus)
    (w : World) : list (PromiseId * Reaction) :=
  match s with
  | client_request request => reactions w ++ dispatch_reactions self request
  | promise_settled p _ =>
      filter (fun pr => negb (on_promise p pr)) (reactions w)
  | _ => reactions w
  end.

(** What reaches anything but the console. *)
Fixpoint transport (o : list Output) : list Output :=
  match o with
  | [] => []
  | console_log _ :: rest => transport rest
  | x :: rest => x :: transport rest
  end.

(** All traffic is logged: every response and every event in the output
    directly follows the console line that shows it. *)
Inductive logged_traffic `{Runtime} : list Output -> Prop :=
| logged_nil : logged_traffic []
| logged_line (l : string) (rest : list Output) :
    logged_traffic rest -> logged_traffic (console_log l :: rest)
| logged_uncaught (e : JS.Value) (rest : list Output) :
    logged_traffic rest -> logged_traffic (uncaught e :: rest)
| logged_response (r : Response) (rest : list Output) :
    logged_traffic rest ->
    logged_traffic
      (console_log ("To client: " ++ JSON_stringify_response r)
       :: to_client_response r :: rest)
| logged_event (ev : Event) (rest : list Output) :
    logged_traffic rest ->
    logged_traffic
      (console_log ("To client: " ++ JSON_stringify_event ev)
       :: to_client_event ev :: rest).

(** Sessions constructed one after the other, in server mode or not. *)
Fixpoint construct_all (modes : list bool) (proxy : AdapterProxy)
    : M World unit :=
  match modes with
  | [] => ret tt
  | isServer :: rest =>
      new_WebKitDebugSession isServer proxy ;; construct_all rest proxy
  end.

(** *** Instances *)

(** A runtime whose serialiser prints every value alike. *)
Definition terse_runtime : Runtime :=
  {| JSON_stringify := fun _ => "null";
     JSON_stringify_response := fun _ => "{}";
     JSON_stringify_event := fun _ => "{}" |}.

(** A request to evaluate, and sessions whose adapter proxy answers every
    request with promise [p], or throws [e] at every request. *)
Definition evaluate_request : Request :=
  {| seq := 7; command := "evaluate"; arguments := JS.str "1+" |}.

Definition answering_session (p : PromiseId) : WebKitDebugSession :=
  {| _adapterProxy := {| proxy_dispatchRequest := fun _ => promise p |} |}.

Definition throwing_session (e : JS.Value) : WebKitDebugSession :=
  {| _adapterProxy := {| proxy_dispatchRequest := fun _ => throws e |} |}.

(** A session whose adapter proxy gives each request a promise of its
    own, a second request, and the world of that session started in server
    mode. *)
Definition numbering_session : WebKitDebugSession :=
  {| _adapterProxy :=
       {| proxy_dispatchRequest := fun r => promise (Z.to_nat (seq r)) |} |}.

Definition scopes_request : Request :=
  {| seq := 8; command := "scopes"; arguments := JS.number 1 |}.

Definition server_world : World :=
  world_of (new_WebKitDebugSession true (_adapterProxy numbering_session)
              initial_world).

End Session.

(* ------------------------------------------------------------------ *)
(** ** The Chrome launcher *)

Module Chrome.

Import Eff.

(** Modelled from the spec: the launch configuration
    ([ILaunchRequestArgs] of chromeDebugInterfaces, not among the
    sources), with every field optional. *)
Record ILaunchRequestArgs : Type := {
  runtimeExecutable : option string;
  port : option Z;
  runtimeArgs : option (list string);
  userDataDir : option string;
  file : option string;
  url : option string;
  address : option string
}.

(** A handle on a spawned child process. *)
Definition ChildProcess : Type := nat.

(** The closures the adapter registers on a child process. *)
Inductive Listener : Type :=
| on_chrome_error.       (* (err) => { logger.log(...); this.terminateSession(); } *)

(** Calls on the collaborators of the adapter: the base class, the core's
    logger and the operating system. *)
Inductive Effect : Type :=
| setupLogging (args : ILaunchRequestArgs)
| logger_log (msg : string)
| spawn (p : ChildProcess) (command : string) (argv : list string)
        (detached : bool) (stdio : list string)
| unref (p : ChildProcess)
| kill (p : ChildProcess) (signal : string)
| terminateSession
| doAttach (port : Z) (launchUrl : option string) (address : option string)
| super_disconnect
| super_clearEverything.

(** A promise the adapter returns: one already rejected, or the one a
    call on the base class returned. *)
Inductive Promise : Type :=
| rejected (reason : JS.Value)
| returned_by (call : Effect).

Record World : Type := {
  _chromeProc : option ChildProcess;
      (* [None]: the field holds no process (null, or the undefined of a
         field not yet assigned; the adapter only tests it for truthiness) *)
  spawned : nat;                                      (* processes spawned so far *)
  listeners : list (ChildProcess * string * Listener);
  trace : list Effect                                 (* oldest first *)
}.

Definition initial_world : World :=
  {| _chromeProc := None; spawned := 0; listeners := []; trace := [] |}.

Definition call (e : Effect) : M World unit :=
  modify (fun w =>
    {| _chromeProc := _chromeProc w;
       spawned := spawned w;
       listeners := listeners w;
       trace := trace w ++ [e] |}).

Definition set_chromeProc (h : option ChildProcess) : M World unit :=
  modify (fun w =>
    {| _chromeProc := h;
       spawned := spawned w;
       listeners := listeners w;
       trace := trace w |}).

(** [child_process.spawn(command, argv, {detached, stdio})]: a new
    process handle. *)
Definition child_process_spawn (command : string) (argv : list string)
    (detached : bool) (stdio : list string) : M World ChildProcess :=
  fun w =>
    let p := spawned w in
    Normal p
      {| _chromeProc := _chromeProc w;
         spawned := S (spawned w);
         listeners := listeners w;
         trace := trace w ++ [spawn p command argv detached stdio] |}.

(** [p.on(name, listener)] *)
Definition on (p : ChildProcess) (name : string) (l : Listener) : M World unit :=
  modify (fun w =>
    {| _chromeProc := _chromeProc w;
       spawned := spawned w;
       listeners := listeners w ++ [(p, name, l)];
       trace := trace w |}).

Definition double_quote : string := String (ascii_of_nat 34) EmptyString.

(** Modelled from the spec: [coreUtils.errP] (of vscode-chrome-debug-core,
    not among the sources) gives a promise rejected with an error carrying
    the message. *)
Definition errP (msg : string) : Promise :=
  rejected (JS.error "Error" msg).

Definition cannot_find_chrome : string :=
  ("Can't find Chrome - install it or set the " ++ double_quote
   ++ "runtimeExecutable" ++ double_quote
   ++ " field in the launch config.")%string.

(** What the adapter takes from its platform: what
    [utils.getBrowserPath()] finds (utils is not among the sources),
    [coreUtils.pathToFileURL] (of vscode-chrome-debug-core) and
    [JSON.stringify] on an array of strings. *)
Class Platform : Type := {
  getBrowserPath : option string;
  pathToFileURL : string -> string;
  JSON_stringify : list string -> string
}.

(** [args.runtimeExecutable || utils.getBrowserPath()], then the
    [!chromePath] test. *)
Definition chromePath_of `{Platform} (args : ILaunchRequestArgs) : option string :=
  match JS.truthy (runtimeExecutable args) with
  | Some path => Some path
  | None => JS.truthy getBrowserPath
  end.

(** The body of the ['error'] listener [launch] registers. *)
Definition listener (l : Listener) (err : JS.Value) : M World unit :=
  match l with
  | on_chrome_error =>
      call (logger_log ("chrome error: " ++ JS.ToString err)) ;;
      call terminateSession
  end.

(** [launch] *)
Definition launch `{Platform} (args : ILaunchRequestArgs) : M World Promise :=
  call (setupLogging args) ;;
  match chromePath_of args with
  | None => ret (errP cannot_find_chrome)
  | Some chromePath =>
      let port := JS.number_or (port args) 9222 in
      let chromeArgs :=
        [("--remote-debugging-port=" ++ JS.number_to_string port)%string] in
      let chromeArgs := chromeArgs ++ ["--no-first-run"; "--no-default-browser-check"] in
      let chromeArgs :=
        match runtimeArgs args with
        | Some extra => chromeArgs ++ extra
        | None => chromeArgs
        end in
      let chromeArgs :=
        match JS.truthy (userDataDir args) with
        | Some dir => chromeArgs ++ [("--user-data-dir=" ++ dir)%string]
        | None => chromeArgs
        end in
      let launchUrl :=
        match JS.truthy (file args) with
        | Some f => Some (pathToFileURL f)
        | None =>
            match JS.truthy (url args) with
            | Some u => Some u
            | None => None
            end
        end in
      let chromeArgs :=
        match JS.truthy launchUrl with
        | Some u => chromeArgs ++ [u]
        | None => chromeArgs
        end in
      call (logger_log ("spawn('" ++ chromePath ++ "', "
                        ++ JSON_stringify chromeArgs ++ ")")) ;;
      p <- child_process_spawn chromePath chromeArgs true ["ignore"] ;;
      set_chromeProc (Some p) ;;
      call (unref p) ;;
      on p "error" on_chrome_error ;;
      call (doAttach port launchUrl (address args)) ;;
      ret (returned_by (doAttach port launchUrl (address args)))
  end.

(** [disconnect] *)
Definition disconnect : M World Promise :=
  (fun w =>
     match _chromeProc w with
     | Some p => (call (kill p "SIGINT") ;; set_chromeProc None) w
     | None => ret tt w
     end) ;;
  call super_disconnect ;;
  ret (returned_by super_disconnect).

(** [clearEverything] *)
Definition clearEverything : M World unit :=
  set_chromeProc None ;;
  call super_clearEverything.

(** The child process [p] emits [name]: its listeners for that event run
    in the order they were registered. *)
Fixpoint emit_to (ls : list (ChildProcess * string * Listener))
    (p : ChildProcess) (name : string) (err : JS.Value) : M World unit :=
  match ls with
  | [] => ret tt
  | (q, n, l) :: rest =>
      if Nat.eqb q p && (n =? name)%string
      then listener l err ;; emit_to rest p name err
      else emit_to rest p name err
  end.

Definition emit (p : ChildProcess) (name : string) (err : JS.Value)
    : M World unit :=
  fun w => emit_to (listeners w) p name err w.

(** *** The argument list, in the words of the specification *)

(** An optional string counts as supplied when it is present and not
    empty. *)
Definition supplied (s : option string) : option string := JS.truthy s.

(** The launch URL: the file converted to a file URL when a file is
    supplied, else the url when one is supplied. *)
Definition launchUrl_spec `{Platform} (args : ILaunchRequestArgs) : option string :=
  match supplied (file args) with
  | Some f => Some (pathToFileURL f)
  | None => supplied (url args)
  end.

(** [[--remote-debugging-port=<port>, --no-first-run,
     --no-default-browser-check, ...extraArgs, --user-data-dir=<dir>?,
     <launchUrl>?]], the port defaulting to 9222. *)
Definition argv_spec `{Platform} (args : ILaunchRequestArgs) : list string :=
  [("--remote-debugging-port="
      ++ JS.number_to_string (JS.number_or (port args) 9222))%string;
   "--no-first-run";
   "--no-default-browser-check"]
  ++ match runtimeArgs args with Some extra => extra | None => [] end
  ++ match supplied (userDataDir args) with
     | Some dir => [("--user-data-dir=" ++ dir)%string]
     | None => []
     end
  ++ match launchUrl_spec args with Some u => [u] | None => [] end.

(** The same configuration with another url. *)
Definition with_url (u : option string) (args : ILaunchRequestArgs)
    : ILaunchRequestArgs :=
  {| runtimeExecutable := runtimeExecutable args;
     port := port args;
     runtimeArgs := runtimeArgs args;
     userDataDir := userDataDir args;
     file := file args;
     url := u;
     address := address args |}.

(** Listeners are only ever registered on processes already spawned. *)
Definition well_formed (w : World) : Prop :=
  forall q n l, In (q, n, l) (listeners w) -> q < spawned w.

(** The argument lists of the processes spawned. *)
Fixpoint spawned_argv (t : list Effect) : list (list string) :=
  match t with
  | [] => []
  | spawn _ _ argv _ _ :: rest => argv :: spawned_argv rest
  | _ :: rest => spawned_argv rest
  end.

(** The signals sent. *)
Fixpoint kills (t : list Effect) : list (ChildProcess * string) :=
  match t with
  | [] => []
  | kill p s :: rest => (p, s) :: kills rest
  | _ :: rest => kills rest
  end.

(** The world after the calls [es]. *)
Definition traced (es : list Effect) (w : World) : World :=
  {| _chromeProc := _chromeProc w;
     spawned := spawned w;
     listeners := listeners w;
     trace := trace w ++ es |}.

(** The argument list [launch] has built when it spawns. *)
Definition argv_of `{Platform} (args : ILaunchRequestArgs) : list string :=
  [("--remote-debugging-port="
      ++ JS.number_to_string (JS.number_or (port args) 9222))%string;
   "--no-first-run";
   "--no-default-browser-check"]
  ++ match runtimeArgs args with Some extra => extra | None => [] end
  ++ match JS.truthy (userDataDir args) with
     | Some dir => [("--user-data-dir=" ++ dir)%string]
     | None => []
     end
  ++ match JS.truthy (launchUrl_spec args) with Some u => [u] | None => [] end.

(** The processes spawned, and the commands they were spawned with. *)
Fixpoint spawned_processes (t : list Effect) : list ChildProcess :=
  match t with
  | [] => []
  | spawn p _ _ _ _ :: rest => p :: spawned_processes rest
  | _ :: rest => spawned_processes rest
  end.

Fixpoint spawned_commands (t : list Effect) : list string :=
  match t with
  | [] => []
  | spawn _ command _ _ _ :: rest => command :: spawned_commands rest
  | _ :: rest => spawned_commands rest
  end.

(** What the adapter is driven by: the three requests, and an error event
    of a child process. *)
Inductive Operation : Type :=
| do_launch (args : ILaunchRequestArgs)
| do_disconnect
| do_clearEverything
| child_error (p : ChildProcess) (err : JS.Value).

Definition perform `{Platform} (op : Operation) (w : World) : World :=
  match op with
  | do_launch args => world_of (launch args w)
  | do_disconnect => world_of (disconnect w)
  | do_clearEverything => world_of (clearEverything w)
  | child_error p err => world_of (emit p "error" err w)
  end.

Definition perform_all `{Platform} (ops : list Operation) (w : World) : World :=
  fold_left (fun w op => perform op w) ops w.

(** The adapter's signals are in order: the process held, if any, was
    spawned by this adapter and has not been sent a signal; every signal
    sent is SIGINT, went to a process this adapter spawned, and no process
    was sent two. *)
Definition signals_in_order (w : World) : Prop :=
  (forall p, _chromeProc w = Some p ->
     p < spawned w /\ ~ In p (map fst (kills (trace w)))) /\
  (forall p s, In (p, s) (kills (trace w)) -> s = "SIGINT" /\ p < spawned w) /\
  NoDup (map fst (kills (trace w))) /\
  (forall p, In p (spawned_processes (trace w)) <-> p < spawned w).

(** *** Instances *)

(** A converter for absolute POSIX paths. *)
Definition file_url (path : string) : string := "file://" ++ path.

(** A platform on which Chrome is installed, and one on which it is
    not. *)
Definition linux_with_chrome : Platform :=
  {| getBrowserPath := Some "/usr/bin/google-chrome";
     pathToFileURL := file_url;
     JSON_stringify := fun _ => "[]" |}.

Definition linux_without_chrome : Platform :=
  {| getBrowserPath := None;
     pathToFileURL := file_url;
     JSON_stringify := fun _ => "[]" |}.

(** The configuration of the specification's example, and one that
    supplies both a file and a url. *)
Definition example_args : ILaunchRequestArgs :=
  {| runtimeExecutable := None;
     port := Some 9000%Z;
     runtimeArgs := Some ["--foo"];
     userDataDir := Some "/tmp/d";
     file := Some "/a/b.html";
     url := None;
     address := None |}.

Definition both_args : ILaunchRequestArgs :=
  with_url (Some "http://localhost:8080/") example_args.

(** A configuration with an empty file and a url. *)
Definition url_args : ILaunchRequestArgs :=
  {| runtimeExecutable := None;
     port := None;
     runtimeArgs := None;
     userDataDir := None;
     file := Some "";
     url := Some "http://localhost:8080/";
     address := Some "127.0.0.1" |}.

End Chrome.

(* ------------------------------------------------------------------ *)
(** ** Properties of the protocol session and its logger *)

Module SessionFacts.

Import Eff DebugProtocol Session.

Section Dispatch.

Context {rt : Runtime}.

Lemma responses_app (a b : list Output) :
  responses (a ++ b) = responses a ++ responses b.
Proof.
  induction a as [|o a IH]; simpl; [reflexivity|].
  destruct o; simpl; rewrite IH; reflexivity.
Qed.

Lemma console_lines_app (a b : list Output) :
  console_lines (a ++ b) = console_lines a ++ console_lines b.
Proof.
  induction a as [|o a IH]; simpl; [reflexivity|].
  destruct o; simpl; rewrite IH; reflexivity.
Qed.

Lemma wrote_nil (w : World) : wrote [] w = w.
Proof. destruct w; unfold wrote; simpl; rewrite app_nil_r; reflexivity. Qed.

Lemma wrote_wrote (a b : list Output) (w : World) :
  wrote b (wrote a w) = wrote (a ++ b) w.
Proof. unfold wrote; simpl; rewrite app_assoc; reflexivity. Qed.

Lemma logging_allowed_wrote (os : list Output) (w : World) :
  logging_allowed (wrote os w) = logging_allowed w.
Proof. reflexivity. Qed.

Lemma responses_logged (w : World) (msg : string) :
  responses (logged w msg) = [].
Proof. unfold logged; destruct (logging_allowed w); reflexivity. Qed.

Lemma Logger_log_run (msg : string) (w : World) :
  Logger_log msg w = Normal tt (wrote (logged w msg) w).
Proof.
  unfold Logger_log, Logger__log, logged, logging_allowed.
  destruct (_logger w) as [l|]; [|rewrite wrote_nil; reflexivity].
  destruct (_isServer l && ALLOW_LOGGING w); [reflexivity|].
  rewrite wrote_nil; reflexivity.
Qed.

Lemma sendResponse_run (r : Response) (w : World) :
  sendResponse r w =
  Normal tt
    (wrote (logged w ("To client: " ++ JSON_stringify_response r)
            ++ [to_client_response r]) w).
Proof.
  unfold sendResponse, bind. rewrite Logger_log_run.
  unfold super_sendResponse, emit, modify. rewrite <- wrote_wrote. reflexivity.
Qed.

Lemma responses_sendResponse (r : Response) (w : World) (msg : string) :
  responses (out (wrote (logged w msg ++ [to_client_response r]) w)) =
  responses (out w) ++ [r].
Proof.
  simpl. rewrite !responses_app, responses_logged. reflexivity.
Qed.

(** X19. When the engine's future rejects with an error whose
    [toString()] returns [s]: if [s] is exactly "unknowncommand", the one
    response sent is the error response with code 1014 ("Unrecognized request"), destined
    for telemetry and carrying no variables; otherwise the one
    response sent has success false and carries [s] in its message field,
    verbatim when the request's command is "evaluate" and behind the tag
    "[webkit-debug-adapter] " for every other command. *)
Theorem rejection_classified (request : Request) (response : Response)
    (e : JS.Value) (s : string) (w : World) :
  JS.toString e = Some s ->
  exists w' r,
    onRejected request response e w = Normal tt w' /\
    reactions w' = reactions w /\
    responses (out w') = responses (out w) ++ [r] /\
    success r = false /\
    request_seq r = request_seq response /\
    (s = "unknowncommand" ->
       r = with_failure
             {| code := 1014; format := "Unrecognized request";
                variables := JS.null; destination := Telemetry |}
             (with_success false response)) /\
    (s <> "unknowncommand" -> command request = "evaluate" ->
       r = with_success false (with_message s response)) /\
    (s <> "unknowncommand" -> command request <> "evaluate" ->
       r = with_success false
             (with_message ("[webkit-debug-adapter] " ++ s) response)).
Proof.
  intros Hs. unfold onRejected, toString, bind. rewrite Hs. unfold ret at 1.
  destruct (String.eqb_spec s "unknowncommand") as [Hu|Hu].
  - unfold sendErrorResponse. rewrite sendResponse_run.
    eexists. eexists. split; [reflexivity|].
    split; [reflexivity|]. split; [apply responses_sendResponse|].
    repeat split; try reflexivity; intros; congruence.
  - unfold ret at 1. rewrite Logger_log_run.
    destruct (String.eqb_spec (command request) "evaluate") as [Hc|Hc];
      unfold ret; rewrite sendResponse_run;
      (eexists; eexists; split; [reflexivity|]);
      (split; [reflexivity|]);
      (split; [rewrite wrote_wrote; simpl;
               rewrite !responses_app, !responses_logged; reflexivity|]);
      repeat split; try reflexivity; intros; congruence.
Qed.

(** A reason whose own [toString] is no function has no string form
    either, alone or inside an array: the call faults. *)
Lemma toString_not_callable :
  JS.toString (JS.object [("toString", JS.null)]) = None /\
  JS.toString (JS.array [JS.number 1; JS.object [("toString", JS.null)]])
  = None /\
  JS.toString (JS.object [("message", JS.str "boom")])
  = Some "[object Object]" /\
  JS.toString (JS.array [JS.number 1; JS.null; JS.str "a"]) = Some "1,,a".
Proof. repeat split. Qed.

(** C2, at a rejection without a string form.  When the engine's future
    rejects with [undefined] or [null], the continuation faults at its
    first statement, [e.toString()], with a TypeError: the failure is not
    classified, the response is neither marked as failed nor sent, and
    the world is left as it was, for an evaluate request as for any
    other. *)
Theorem nullish_rejection_unclassified (request : Request)
    (response : Response) (w : World) :
  onRejected request response JS.undefined w =
    Thrown (JS.TypeError JS.undefined "toString") w /\
  onRejected request response JS.null w =
    Thrown (JS.TypeError JS.null "toString") w /\
  responses
    (out (job (react (rejected JS.undefined)
                 {| reaction_request := request;
                    reaction_response := response |}) w)) =
  responses (out w).
Proof.
  split; [reflexivity|]. split; [reflexivity|].
  unfold job. simpl. rewrite responses_app. apply app_nil_r.
Qed.


(** A rejection whose reason has a string form is answered with one
    response, correlated as the response object is. *)
Lemma onRejected_sends (request : Request) (response : Response)
    (e : JS.Value) (s : string) (w : World) :
  JS.toString e = Some s ->
  exists w' r,
    onRejected request response e w = Normal tt w' /\
    reactions w' = reactions w /\
    responses (out w') = responses (out w) ++ [r] /\
    request_seq r = request_seq response.
Proof.
  intros Hs. unfold onRejected, toString, bind. rewrite Hs. unfold ret at 1.
  destruct (s =? "unknowncommand")%string.
  - unfold sendErrorResponse. rewrite sendResponse_run.
    eexists. eexists. split; [reflexivity|]. split; [reflexivity|].
    split; [apply responses_sendResponse|reflexivity].
  - unfold ret at 1. rewrite Logger_log_run.
    destruct (command request =? "evaluate")%string;
      unfold ret; rewrite sendResponse_run, wrote_wrote;
      (eexists; eexists; split; [reflexivity|]);
      (split; [reflexivity|]);
      (split; [simpl; rewrite !responses_app, !responses_logged;
               reflexivity|reflexivity]).
Qed.

Lemma react_answerable (o : Settlement) (rx : Reaction) (w : World) :
  answerable o = true ->
  exists w' r,
    react o rx w = Normal tt w' /\
    reactions w' = reactions w /\
    responses (out w') = responses (out w) ++ [r] /\
    request_seq r = request_seq (reaction_response rx).
Proof.
  destruct o as [b|e]; simpl; intros Ha.
  - unfold onFulfilled. rewrite sendResponse_run.
    eexists. eexists. split; [reflexivity|]. split; [reflexivity|].
    split; [apply responses_sendResponse|reflexivity].
  - destruct (JS.toString e) as [s|] eqn:Hs; [|discriminate].
    apply (onRejected_sends _ _ e s w Hs).
Qed.

Lemma dispatchRequest_promise (self : WebKitDebugSession)
    (request : Request) (p : PromiseId) (w : World) :
  proxy_dispatchRequest (_adapterProxy self) request = promise p ->
  dispatchRequest self request w =
  Normal tt
    (set_reactions (reactions w ++ [(p, reaction_of request)])
       (wrote (logged w ("From client: " ++ command request ++ "("
                         ++ JSON_stringify (arguments request) ++ ")")) w)).
Proof.
  intros Hp. unfold dispatchRequest, try_catch, bind.
  rewrite Logger_log_run. unfold AdapterProxy_dispatchRequest.
  rewrite Hp. reflexivity.
Qed.

Lemma filter_off_on (p : PromiseId) (rs : list (PromiseId * Reaction)) :
  filter (on_promise p) (filter (fun pr => negb (on_promise p pr)) rs) = [].
Proof.
  induction rs as [|pr rs IH]; simpl; [reflexivity|].
  destruct (on_promise p pr) eqn:E; simpl; [exact IH|].
  rewrite E. exact IH.
Qed.

Lemma settle_nothing_pending (p : PromiseId) (o : Settlement) (w : World) :
  filter (on_promise p) (reactions w) = [] ->
  out (settle p o w) = out w.
Proof. intros H. unfold settle. rewrite H. reflexivity. Qed.

(** X1. Exactly one response per request the engine answers.  When the
    adapter proxy returns a promise for a request (one nothing else awaits),
    the dispatch itself sends nothing; when that promise is resolved with
    any body, or rejected with a reason that has a string form, exactly one
    response is sent, correlated to the request by its id; and no later
    settlement of that promise sends anything. *)
Theorem one_response_per_answer (self : WebKitDebugSession)
    (request : Request) (p : PromiseId) (o : Settlement) (w : World) :
  proxy_dispatchRequest (_adapterProxy self) request = promise p ->
  filter (on_promise p) (reactions w) = [] ->
  answerable o = true ->
  let w1 := step self (client_request request) w in
  let w2 := step self (promise_settled p o) w1 in
  responses (out w1) = responses (out w) /\
  (exists r, responses (out w2) = responses (out w) ++ [r] /\
             request_seq r = seq request) /\
  (forall o', out (step self (promise_settled p o') w2) = out w2).
Proof.
  intros Hp Hfresh Ha w1 w2.
  assert (E1 : w1 =
    set_reactions (reactions w ++ [(p, reaction_of request)])
      (wrote (logged w ("From client: " ++ command request ++ "("
                        ++ JSON_stringify (arguments request) ++ ")")) w)).
  { unfold w1, step, job. rewrite (dispatchRequest_promise _ _ _ _ Hp).
    reflexivity. }
  assert (R1 : responses (out w1) = responses (out w)).
  { rewrite E1. simpl. rewrite responses_app, responses_logged.
    apply app_nil_r. }
  assert (F1 : filter (on_promise p) (reactions w1) = [(p, reaction_of request)]).
  { rewrite E1. simpl. rewrite filter_app, Hfresh. simpl.
    unfold on_promise at 1. simpl. rewrite Nat.eqb_refl. reflexivity. }
  set (w1' := set_reactions
                (filter (fun pr => negb (on_promise p pr)) (reactions w1)) w1).
  destruct (react_answerable o (reaction_of request) w1' Ha)
    as (w' & r & Hrun & Hre & Hout & Hseq).
  assert (E2 : w2 = w').
  { unfold w2, step, settle. rewrite F1. simpl. fold w1'.
    unfold job. rewrite Hrun. reflexivity. }
  split; [exact R1|]. split.
  - exists r. rewrite E2, Hout. unfold w1'. simpl. rewrite R1.
    split; [reflexivity|exact Hseq].
  - intros o'. simpl. apply settle_nothing_pending.
    rewrite E2, Hre. unfold w1'. simpl. apply filter_off_on.
Qed.

(** C1, at a rejection without a string form.  A session whose adapter
    proxy returns promise [p] receives a request; the promise is then
    rejected with [undefined].  The continuation's [e.toString()] raises a
    TypeError that nothing catches, and no response is sent for the
    request. *)
Theorem undefined_rejection_unanswered (request : Request) (p : PromiseId)
    (isServer : bool) :
  let self := answering_session p in
  let w0 :=
    world_of (new_WebKitDebugSession isServer (_adapterProxy self)
                initial_world) in
  let w2 := run self [client_request request;
                      promise_settled p (rejected JS.undefined)] w0 in
  responses (out w2) = [] /\
  In (uncaught (JS.TypeError JS.undefined "toString")) (out w2) /\
  reactions w2 = [].
Proof.
  destruct isServer; cbn; rewrite Nat.eqb_refl; cbn; auto.
Qed.


(** X2. A synchronous throw of the adapter proxy is answered.  When the
    proxy's [dispatchRequest] throws a value whose [message] can be read,
    the dispatch routine completes normally: it sends exactly one
    response, the error response with code 1104 that carries the
    exception's message as the variable [_exception] and is destined for
    telemetry; nothing but the output changes, so the session serves the
    next request as before. *)
Theorem sync_throw_reported (self : WebKitDebugSession) (request : Request)
    (e m : JS.Value) (w : World) :
  proxy_dispatchRequest (_adapterProxy self) request = throws e ->
  JS.get_message e = Some m ->
  exists os,
    dispatchRequest self request w = Normal tt (wrote os w) /\
    step self (client_request request) w = wrote os w /\
    responses os =
      [with_failure
         {| code := 1104;
            format := "Exception while processing request (exception: {_exception})";
            variables := JS.object [("_exception", m)];
            destination := Telemetry |}
         (with_success false (new_Response request))].
Proof.
  intros Hp Hm.
  assert (E : exists os,
    dispatchRequest self request w = Normal tt (wrote os w) /\
    responses os =
      [with_failure
         {| code := 1104;
            format := "Exception while processing request (exception: {_exception})";
            variables := JS.object [("_exception", m)];
            destination := Telemetry |}
         (with_success false (new_Response request))]).
  { unfold dispatchRequest, try_catch, bind. rewrite Logger_log_run.
    unfold AdapterProxy_dispatchRequest. rewrite Hp. unfold throw.
    unfold get_message. rewrite Hm. unfold ret, sendErrorResponse.
    rewrite sendResponse_run, wrote_wrote.
    eexists. split; [reflexivity|].
    rewrite !responses_app, !responses_logged. reflexivity. }
  destruct E as (os & Hrun & Hres). exists os.
  split; [exact Hrun|]. split; [|exact Hres].
  unfold step, job. rewrite Hrun. reflexivity.
Qed.

(** C3, at a thrown [null].  When the adapter proxy's [dispatchRequest]
    throws [null], the handler's own [e.message] raises a TypeError: the
    exception escapes the dispatch routine and no response is sent. *)
Theorem null_throw_escapes (request : Request) (w : World) :
  let self := throwing_session JS.null in
  exists w',
    dispatchRequest self request w =
      Thrown (JS.TypeError JS.null "message") w' /\
    responses (out w') = responses (out w).
Proof.
  intros self. unfold dispatchRequest, try_catch, bind.
  rewrite Logger_log_run. cbn.
  eexists. split; [reflexivity|].
  simpl. rewrite responses_app, responses_logged. apply app_nil_r.
Qed.


(** *** Logging *)

Create HintDb quiet.

Lemma quiet_ret {A : Type} (a : A) : quiet (ret a).
Proof. intros w H; simpl; auto. Qed.

Lemma quiet_throw {A : Type} (e : JS.Value) : quiet (@throw World A e).
Proof. intros w H; simpl; auto. Qed.

Lemma quiet_bind {A B : Type} (m : M World A) (k : A -> M World B) :
  quiet m -> (forall a, quiet (k a)) -> quiet (bind m k).
Proof.
  intros Hm Hk w H. unfold bind.
  destruct (Hm w H) as [H1 H2].
  destruct (m w) as [a w'|e w']; simpl in *; [|auto].
  destruct (Hk a w' H1) as [H3 H4]. split; [exact H3|congruence].
Qed.

Lemma quiet_try_catch {A : Type} (m : M World A) (h : JS.Value -> M World A) :
  quiet m -> (forall e, quiet (h e)) -> quiet (try_catch m h).
Proof.
  intros Hm Hh w H. unfold try_catch.
  destruct (Hm w H) as [H1 H2].
  destruct (m w) as [a w'|e w']; simpl in *; [auto|].
  destruct (Hh e w' H1) as [H3 H4]. split; [exact H3|congruence].
Qed.

Lemma quiet_Logger_log (msg : string) : quiet (Logger_log msg).
Proof.
  intros w H. rewrite Logger_log_run. unfold logged. rewrite H.
  rewrite wrote_nil. simpl. auto.
Qed.

Lemma quiet_to_client_response (r : Response) :
  quiet (emit (to_client_response r)).
Proof.
  intros w H. simpl. split; [exact H|].
  rewrite console_lines_app. apply app_nil_r.
Qed.

Lemma quiet_to_client_event (ev : Event) : quiet (emit (to_client_event ev)).
Proof.
  intros w H. simpl. split; [exact H|].
  rewrite console_lines_app. apply app_nil_r.
Qed.

Lemma quiet_uncaught (e : JS.Value) : quiet (emit (uncaught e)).
Proof.
  intros w H. simpl. split; [exact H|].
  rewrite console_lines_app. apply app_nil_r.
Qed.

Lemma quiet_then_ (p : PromiseId) (r : Reaction) : quiet (then_ p r).
Proof. intros w H. simpl. auto. Qed.

Lemma quiet_toString (e : JS.Value) : quiet (toString e).
Proof.
  unfold toString. destruct (JS.toString e); [apply quiet_ret|apply quiet_throw].
Qed.

Lemma quiet_get_message (e : JS.Value) : quiet (get_message e).
Proof.
  unfold get_message.
  destruct (JS.get_message e); [apply quiet_ret|apply quiet_throw].
Qed.

#[local] Hint Resolve quiet_ret quiet_throw quiet_Logger_log
  quiet_to_client_response quiet_to_client_event quiet_uncaught quiet_then_
  quiet_toString quiet_get_message : quiet.

Ltac quiet_steps :=
  repeat first
    [ solve [auto with quiet]
    | apply quiet_bind; [|intros ?]
    | apply quiet_try_catch; [|intros ?]
    | match goal with
      | |- quiet (if ?c then _ else _) => destruct c
      | |- quiet (match ?x with _ => _ end) => destruct x
      end ].

Lemma quiet_sendResponse (r : Response) : quiet (sendResponse r).
Proof. unfold sendResponse, super_sendResponse. quiet_steps. Qed.

Lemma quiet_sendEvent (ev : Event) : quiet (sendEvent ev).
Proof. unfold sendEvent, super_sendEvent. quiet_steps. Qed.

#[local] Hint Resolve quiet_sendResponse quiet_sendEvent : quiet.

Lemma quiet_react (o : Settlement) (rx : Reaction) : quiet (react o rx).
Proof.
  destruct o; unfold react, onFulfilled, onRejected, sendErrorResponse;
    quiet_steps.
Qed.

Lemma quiet_dispatchRequest (self : WebKitDebugSession) (request : Request) :
  quiet (dispatchRequest self request).
Proof.
  unfold dispatchRequest, sendResponseAsync, sendErrorResponse,
    AdapterProxy_dispatchRequest.
  quiet_steps.
Qed.

Lemma quiet_call (cb : Callback) : quiet (call cb).
Proof. destruct cb; simpl; auto with quiet. Qed.

Lemma quiet_job (m : M World unit) : quiet m -> quiet_step (job m).
Proof.
  intros Hm w H. unfold job. destruct (Hm w H) as [H1 H2].
  destruct (m w) as [a w'|e w']; simpl in *; [auto|].
  split; [exact H1|]. rewrite console_lines_app, H2. apply app_nil_r.
Qed.

Lemma quiet_fold {X : Type} (f : World -> X -> World) (xs : list X) :
  (forall x, quiet_step (fun w => f w x)) ->
  quiet_step (fun w => fold_left f xs w).
Proof.
  intros Hf. induction xs as [|x xs IH]; intros w H; simpl; [auto|].
  destruct (Hf x w H) as [H1 H2].
  destruct (IH (f w x) H1) as [H3 H4]. split; [exact H3|congruence].
Qed.

Lemma quiet_settle (p : PromiseId) (o : Settlement) : quiet_step (settle p o).
Proof.
  intros w H. unfold settle.
  assert (Hf : forall pr : PromiseId * Reaction,
             quiet_step (fun w => job (react o (snd pr)) w)).
  { intros pr. apply quiet_job, quiet_react. }
  exact (quiet_fold (fun w pr => job (react o (snd pr)) w)
           (filter (on_promise p) (reactions w)) Hf
           (set_reactions
              (filter (fun pr => negb (on_promise p pr)) (reactions w)) w) H).
Qed.

Lemma quiet_run (self : WebKitDebugSession) (ss : list Stimulus) :
  quiet_step (run self ss).
Proof.
  unfold run. apply quiet_fold. intros [request|p o|ev|cb]; simpl.
  - apply quiet_job, quiet_dispatchRequest.
  - apply quiet_settle.
  - apply quiet_job, quiet_sendEvent.
  - apply quiet_job, quiet_call.
Qed.

Lemma Logger_log_all_run (msgs : list string) (w : World) :
  Logger_log_all msgs w =
  Normal tt
    (wrote (if logging_allowed w then map console_log msgs else []) w).
Proof.
  revert w. induction msgs as [|m msgs IH]; intros w; simpl.
  - unfold ret. destruct (logging_allowed w); rewrite wrote_nil; reflexivity.
  - unfold bind. rewrite Logger_log_run, IH, wrote_wrote, logging_allowed_wrote.
    unfold logged. destruct (logging_allowed w); reflexivity.
Qed.


(** C8. For every list of messages (any number of invocations),
    [Logger.log] writes to the console exactly when the logger was
    initialised in server mode and [ALLOW_LOGGING] is true, and writes
    nothing otherwise; after an initialisation outside server mode it
    writes nothing, and a session not started in server mode writes
    nothing to the console whatever requests, settlements, events and
    timer ticks it serves. *)
Theorem logging_only_in_server_mode (msgs : list string) (w : World) :
  out (world_of (Logger_log_all msgs w)) =
    out w ++ (if logging_allowed w then map console_log msgs else []) /\
  (logging_allowed w = true <->
     _logger w = Some {| _isServer := true |} /\ ALLOW_LOGGING w = true) /\
  out (world_of ((Logger_init false ;; Logger_log_all msgs) w)) = out w /\
  (forall (proxy : AdapterProxy) (ss : list Stimulus),
     console_lines
       (out (run {| _adapterProxy := proxy |} ss
               (world_of (new_WebKitDebugSession false proxy w)))) =
     console_lines (out w)).
Proof.
  split; [|split; [|split]].
  - rewrite Logger_log_all_run. reflexivity.
  - unfold logging_allowed. destruct (_logger w) as [[[|]]|]; simpl.
    + split; [intros H; auto|intros [_ H]; exact H].
    + split; [discriminate|intros [H _]; discriminate].
    + split; [discriminate|intros [H _]; discriminate].
  - unfold bind. simpl. rewrite Logger_log_all_run. simpl. apply app_nil_r.
  - intros proxy ss.
    apply (quiet_run {| _adapterProxy := proxy |} ss
             (world_of (new_WebKitDebugSession false proxy w))).
    reflexivity.
Qed.


End Dispatch.

(** *** At an instance *)

Lemma rejection_classified_witness :
  exists w' r,
    @onRejected terse_runtime evaluate_request
      (new_Response evaluate_request)
      (JS.error "SyntaxError" "Unexpected end of input") initial_world
    = Normal tt w' /\
    responses (out w') = [r] /\
    message r = Some "SyntaxError: Unexpected end of input".
Proof.
  destruct (@rejection_classified terse_runtime evaluate_request
              (new_Response evaluate_request)
              (JS.error "SyntaxError" "Unexpected end of input")
              "SyntaxError: Unexpected end of input" initial_world eq_refl)
    as (w' & r & Hrun & _ & Hout & _ & _ & _ & Hev & _).
  exists w', r. split; [exact Hrun|]. split; [exact Hout|].
  rewrite (Hev ltac:(discriminate) eq_refl). reflexivity.
Defined.

Lemma one_response_per_answer_witness :
  exists r,
    responses
      (out (@run terse_runtime (answering_session 0)
              [client_request evaluate_request;
               promise_settled 0 (fulfilled (JS.number 2))]
              initial_world)) = [r] /\
    request_seq r = 7%Z.
Proof.
  destruct (@one_response_per_answer terse_runtime (answering_session 0)
              evaluate_request 0 (fulfilled (JS.number 2)) initial_world
              eq_refl eq_refl eq_refl) as (_ & H & _).
  exact H.
Defined.

Lemma sync_throw_reported_witness :
  exists os,
    @dispatchRequest terse_runtime
      (throwing_session (JS.error "TypeError" "x is not a function"))
      evaluate_request initial_world
    = Normal tt (wrote os initial_world) /\
    length (responses os) = 1.
Proof.
  destruct (@sync_throw_reported terse_runtime
              (throwing_session (JS.error "TypeError" "x is not a function"))
              evaluate_request
              (JS.error "TypeError" "x is not a function")
              (JS.str "x is not a function") initial_world
              eq_refl eq_refl) as (os & Hrun & _ & Hres).
  exists os. split; [exact Hrun|]. rewrite Hres. reflexivity.
Defined.

(** *** Runs of the session *)

Section Runs.

Context {rt : Runtime}.

Lemma set_reactions_same (w : World) : set_reactions (reactions w) w = w.
Proof. destruct w; reflexivity. Qed.

Lemma sendResponse_out (r : Response) (w : World) :
  sendResponse r w = Normal tt (wrote (send_out (logging_allowed w) r) w).
Proof. apply sendResponse_run. Qed.

Lemma job_react_run (o : Settlement) (rx : Reaction) (w : World) :
  job (react o rx) w = wrote (react_out (logging_allowed w) o rx) w.
Proof.
  unfold job, react_out. destruct o as [b|e]; simpl.
  - unfold onFulfilled. rewrite sendResponse_out. reflexivity.
  - unfold onRejected, toString, bind.
    destruct (JS.toString e) as [s|]; [|reflexivity].
    unfold ret at 1. destruct (s =? "unknowncommand")%string.
    + unfold sendErrorResponse. rewrite sendResponse_out. reflexivity.
    + unfold ret at 1. rewrite Logger_log_run.
      destruct (command (reaction_request rx) =? "evaluate")%string;
        unfold ret; rewrite sendResponse_out, wrote_wrote; reflexivity.
Qed.

Lemma fold_react_run (o : Settlement) (l : list (PromiseId * Reaction))
    (v : World) :
  fold_left (fun w pr => job (react o (snd pr)) w) l v =
  wrote (flat_map (fun pr => react_out (logging_allowed v) o (snd pr)) l) v.
Proof.
  revert v. induction l as [|pr l IH]; intros v; simpl.
  - symmetry. apply wrote_nil.
  - rewrite job_react_run, IH, wrote_wrote. reflexivity.
Qed.

Lemma job_dispatch_run (self : WebKitDebugSession) (request : Request)
    (w : World) :
  job (dispatchRequest self request) w =
  set_reactions (reactions w ++ dispatch_reactions self request)
    (wrote (log_line (logging_allowed w) (from_client request)
            ++ dispatch_out (logging_allowed w) self request) w).
Proof.
  unfold job, dispatchRequest, try_catch, bind, dispatch_out,
    dispatch_reactions.
  rewrite Logger_log_run. unfold AdapterProxy_dispatchRequest.
  destruct (proxy_dispatchRequest (_adapterProxy self) request) as [p|e].
  - simpl. rewrite app_nil_r. reflexivity.
  - unfold throw, get_message.
    destruct (JS.get_message e) as [m|].
    + unfold ret, sendErrorResponse. rewrite sendResponse_out, wrote_wrote.
      rewrite app_nil_r.
      symmetry. apply (set_reactions_same (wrote _ w)).
    + unfold throw. rewrite app_nil_r.
      change (world_of (emit ?o ?v)) with (wrote [o] v).
      rewrite wrote_wrote.
      symmetry. apply (set_reactions_same (wrote _ w)).
Qed.

(** Every step appends to the output and updates the pending reactions;
    it changes nothing else. *)
Lemma step_run (self : WebKitDebugSession) (s : Stimulus) (w : World) :
  step self s w =
  set_reactions (step_reactions self s w) (wrote (step_out self s w) w).
Proof.
  destruct s as [request|p o|ev|cb]; simpl.
  - apply job_dispatch_run.
  - unfold settle. rewrite fold_react_run. reflexivity.
  - unfold job, sendEvent, bind. rewrite Logger_log_run.
    unfold super_sendEvent. simpl.
    rewrite <- app_assoc. symmetry. apply (set_reactions_same (wrote _ w)).
  - destruct cb. unfold job. simpl. rewrite Logger_log_run.
    symmetry. apply (set_reactions_same (wrote _ w)).
Qed.

Lemma step_logging (self : WebKitDebugSession) (s : Stimulus) (w : World) :
  logging_allowed (step self s w) = logging_allowed w.
Proof. rewrite step_run. reflexivity. Qed.

Lemma step_output (self : WebKitDebugSession) (s : Stimulus) (w : World) :
  out (step self s w) = out w ++ step_out self s w.
Proof. rewrite step_run. reflexivity. Qed.

Lemma step_pending (self : WebKitDebugSession) (s : Stimulus) (w : World) :
  reactions (step self s w) = step_reactions self s w.
Proof. rewrite step_run. reflexivity. Qed.

Lemma events_app (a b : list Output) :
  events (a ++ b) = events a ++ events b.
Proof.
  induction a as [|o a IH]; simpl; [reflexivity|].
  destruct o; simpl; rewrite IH; reflexivity.
Qed.

Lemma events_log_line (on : bool) (msg : string) :
  events (log_line on msg) = [].
Proof. destruct on; reflexivity. Qed.

Lemma responses_log_line (on : bool) (msg : string) :
  responses (log_line on msg) = [].
Proof. destruct on; reflexivity. Qed.

Lemma events_send_out (on : bool) (r : Response) : events (send_out on r) = [].
Proof. unfold send_out. rewrite events_app, events_log_line. reflexivity. Qed.

Lemma responses_send_out (on : bool) (r : Response) :
  responses (send_out on r) = [r].
Proof.
  unfold send_out. rewrite responses_app, responses_log_line. reflexivity.
Qed.

Lemma events_react_out (on : bool) (o : Settlement) (rx : Reaction) :
  events (react_out on o rx) = [].
Proof.
  unfold react_out. destruct o as [b|e]; [apply events_send_out|].
  destruct (JS.toString e) as [s|]; [|reflexivity].
  destruct (s =? "unknowncommand")%string; [apply events_send_out|].
  rewrite events_app, events_log_line. apply events_send_out.
Qed.

Lemma responses_react_out_le (on : bool) (o : Settlement) (rx : Reaction) :
  length (responses (react_out on o rx)) <= 1.
Proof.
  unfold react_out. destruct o as [b|e].
  - rewrite responses_send_out. simpl. lia.
  - destruct (JS.toString e) as [s|]; [|simpl; lia].
    destruct (s =? "unknowncommand")%string.
    + rewrite responses_send_out. simpl. lia.
    + rewrite responses_app, responses_log_line, responses_send_out.
      simpl. lia.
Qed.

Lemma events_step_out (self : WebKitDebugSession) (s : Stimulus) (w : World) :
  events (step_out self s w) = events_of [s].
Proof.
  destruct s as [request|p o|ev|cb]; simpl.
  - rewrite events_app, events_log_line. unfold dispatch_out.
    destruct (proxy_dispatchRequest (_adapterProxy self) request) as [p|e];
      [reflexivity|].
    destruct (JS.get_message e); [apply events_send_out|reflexivity].
  - induction (filter (on_promise p) (reactions w)) as [|pr l IH];
      simpl; [reflexivity|].
    rewrite events_app, events_react_out. exact IH.
  - rewrite events_app, events_log_line. reflexivity.
  - destruct cb. apply events_log_line.
Qed.

(** X3. Events are neither dropped, nor coalesced, nor reordered.
    Whatever requests, settlements, events and timer ticks a session
    serves, the events handed to the transport are exactly the events the
    adapter raised, in the order it raised them; nothing else of the
    session ever sends an event. *)
Theorem events_delivered_in_order (self : WebKitDebugSession)
    (ss : list Stimulus) (w : World) :
  events (out (run self ss w)) = events (out w) ++ events_of ss.
Proof.
  unfold run. revert w. induction ss as [|s ss IH]; intros w; simpl.
  - symmetry. apply app_nil_r.
  - rewrite IH, step_output, events_app, events_step_out.
    rewrite <- app_assoc. destruct s; reflexivity.
Qed.

Lemma responses_to_app (n : Z) (a b : list Output) :
  responses_to n (a ++ b) = responses_to n a ++ responses_to n b.
Proof. unfold responses_to. rewrite responses_app. apply filter_app. Qed.

Lemma responses_to_log_line (n : Z) (on : bool) (msg : string) :
  responses_to n (log_line on msg) = [].
Proof. destruct on; reflexivity. Qed.

Lemma responses_to_send_out (n : Z) (on : bool) (r : Response) :
  responses_to n (send_out on r) =
  if (request_seq r =? n)%Z then [r] else [].
Proof.
  unfold responses_to. rewrite responses_send_out. reflexivity.
Qed.

Lemma length_responses_to_send_out (n : Z) (on : bool) (r : Response) :
  length (responses_to n (send_out on r)) = weight n r.
Proof.
  rewrite responses_to_send_out. unfold weight.
  destruct (request_seq r =? n)%Z; reflexivity.
Qed.

(** Whatever a continuation sends is correlated as its response object. *)
Lemma responses_to_react_out_le (n : Z) (on : bool) (o : Settlement)
    (rx : Reaction) :
  length (responses_to n (react_out on o rx))
  <= weight n (reaction_response rx).
Proof.
  unfold react_out. destruct o as [b|e].
  - rewrite length_responses_to_send_out. unfold weight. simpl. lia.
  - destruct (JS.toString e) as [s|]; [|simpl; lia].
    destruct (s =? "unknowncommand")%string.
    + rewrite length_responses_to_send_out. unfold weight. simpl. lia.
    + rewrite responses_to_app, responses_to_log_line.
      cbn [app]. rewrite length_responses_to_send_out.
      unfold weight. simpl. lia.
Qed.

Lemma length_pending_for_cons (n : Z) (pr : PromiseId * Reaction)
    (l : list (PromiseId * Reaction)) :
  length (pending_for n (pr :: l)) =
  weight n (reaction_response (snd pr)) + length (pending_for n l).
Proof.
  unfold pending_for, weight. simpl.
  destruct (request_seq (reaction_response (snd pr)) =? n)%Z; reflexivity.
Qed.

Lemma responses_to_reactions_le (n : Z) (on : bool) (o : Settlement)
    (l : list (PromiseId * Reaction)) :
  length (responses_to n (flat_map (fun pr => react_out on o (snd pr)) l))
  <= length (pending_for n l).
Proof.
  induction l as [|pr l IH]; [simpl; lia|].
  cbn [flat_map]. rewrite responses_to_app, length_app, length_pending_for_cons.
  pose proof (responses_to_react_out_le n on o (snd pr)). lia.
Qed.

Lemma pending_for_split (n : Z) (f : PromiseId * Reaction -> bool)
    (l : list (PromiseId * Reaction)) :
  length (pending_for n (filter f l))
  + length (pending_for n (filter (fun pr => negb (f pr)) l))
  = length (pending_for n l).
Proof.
  induction l as [|pr l IH]; [reflexivity|].
  cbn [filter]. destruct (f pr); cbn [negb];
    rewrite !length_pending_for_cons; lia.
Qed.

Lemma step_balance_for (n : Z) (self : WebKitDebugSession) (s : Stimulus)
    (w : World) :
  length (responses_to n (step_out self s w))
  + length (pending_for n (step_reactions self s w))
  <= length (pending_for n (reactions w)) + length (requests_with n [s]).
Proof.
  destruct s as [request|p o|ev|cb]; unfold step_out, step_reactions.
  - rewrite responses_to_app, responses_to_log_line. cbn [app].
    unfold pending_for at 1. rewrite filter_app, length_app.
    fold (pending_for n (reactions w)).
    fold (pending_for n (dispatch_reactions self request)).
    unfold dispatch_out, dispatch_reactions, requests_with. simpl.
    destruct (proxy_dispatchRequest (_adapterProxy self) request) as [p|e].
    + rewrite length_pending_for_cons. unfold weight. simpl.
      destruct (seq request =? n)%Z; simpl; lia.
    + destruct (JS.get_message e).
      * rewrite length_responses_to_send_out. unfold weight. simpl.
        destruct (seq request =? n)%Z; simpl; lia.
      * simpl. lia.
  - pose proof (responses_to_reactions_le n (logging_allowed w) o
                  (filter (on_promise p) (reactions w))).
    pose proof (pending_for_split n (on_promise p) (reactions w)).
    simpl. lia.
  - rewrite responses_to_app, responses_to_log_line. simpl. lia.
  - destruct cb. rewrite responses_to_log_line. simpl. lia.
Qed.

(** X4. No request is answered twice.  Along every run and for every
    request id, the responses sent that are correlated to that id plus
    the continuations still pending for it never exceed what was there
    before plus the requests received with that id: a request yields at
    most one pending continuation or one response correlated to it, and a
    continuation at most one response, correlated as its request. *)
Theorem responses_bounded_per_request (self : WebKitDebugSession)
    (ss : list Stimulus) (n : Z) (w : World) :
  length (responses_to n (out (run self ss w)))
  + length (pending_for n (reactions (run self ss w)))
  <= length (responses_to n (out w)) + length (pending_for n (reactions w))
     + length (requests_with n ss).
Proof.
  unfold run. revert w. induction ss as [|s ss IH]; intros w; simpl.
  - unfold requests_with. simpl. lia.
  - specialize (IH (step self s w)).
    rewrite step_output, step_pending, responses_to_app, length_app in IH.
    pose proof (step_balance_for n self s w) as Hs.
    assert (Hr : length (requests_with n (s :: ss))
                 = length (requests_with n [s]) + length (requests_with n ss)).
    { unfold requests_with. destruct s; simpl; try reflexivity.
      destruct (seq request =? n)%Z; reflexivity. }
    lia.
Qed.

Lemma step_keeps_pending (self : WebKitDebugSession) (s : Stimulus)
    (p : PromiseId) (rx : Reaction) (w : World) :
  settles p [s] = false ->
  In (p, rx) (reactions w) ->
  In (p, rx) (reactions (step self s w)).
Proof.
  intros Hs Hin. rewrite step_pending.
  destruct s as [request|q o|ev|cb]; simpl in *; try exact Hin.
  - apply in_or_app. left. exact Hin.
  - apply filter_In. split; [exact Hin|].
    unfold on_promise. simpl.
    rewrite Nat.eqb_sym. destruct (Nat.eqb q p); [discriminate|reflexivity].
Qed.

Lemma run_keeps_pending (self : WebKitDebugSession) (ss : list Stimulus)
    (p : PromiseId) (rx : Reaction) (w : World) :
  settles p ss = false ->
  In (p, rx) (reactions w) ->
  In (p, rx) (reactions (run self ss w)).
Proof.
  unfold run. revert w. induction ss as [|s ss IH]; intros w Hss Hin; simpl;
    [exact Hin|].
  apply IH.
  - destruct s as [r|q o|ev|cb]; simpl in *; try exact Hss.
    destruct (Nat.eqb q p); [discriminate|exact Hss].
  - apply step_keeps_pending; [|exact Hin].
    destruct s as [r|q o|ev|cb]; simpl in *; try reflexivity.
    destruct (Nat.eqb q p); [discriminate|reflexivity].
Qed.

Lemma responses_fulfilled (on : bool) (b : JS.Value)
    (l : list (PromiseId * Reaction)) :
  responses (flat_map (fun pr => react_out on (fulfilled b) (snd pr)) l) =
  map (fun pr => with_body b (reaction_response (snd pr))) l.
Proof.
  induction l as [|pr l IH]; [reflexivity|].
  cbn [flat_map map]. rewrite responses_app, IH.
  unfold react_out. rewrite responses_send_out. reflexivity.
Qed.

(** X5. A dispatched request is neither cancelled nor timed out.  Once the
    adapter proxy has returned promise [p] for a request, the request's
    continuation stays attached through every run that does not settle
    [p], whatever other requests, settlements, events and timer ticks the
    session serves; and when [p] is fulfilled after that run, the session
    sends, among the responses of that step, the response to the request
    carrying the body. *)
Theorem pending_until_settled (self : WebKitDebugSession) (request : Request)
    (p : PromiseId) (ss : list Stimulus) (w : World) :
  proxy_dispatchRequest (_adapterProxy self) request = promise p ->
  settles p ss = false ->
  let w' := run self (client_request request :: ss) w in
  In (p, reaction_of request) (reactions w') /\
  forall b,
    exists sent,
      responses (out (step self (promise_settled p (fulfilled b)) w')) =
        responses (out w') ++ sent /\
      In (with_body b (new_Response request)) sent.
Proof.
  intros Hp Hss w'.
  assert (Hin : In (p, reaction_of request) (reactions w')).
  { unfold w'.
    change (run self (client_request request :: ss) w)
      with (run self ss (step self (client_request request) w)).
    apply run_keeps_pending; [exact Hss|].
    rewrite step_pending. simpl. unfold dispatch_reactions. rewrite Hp.
    apply in_or_app. right. left. reflexivity. }
  split; [exact Hin|]. intros b.
  exists (responses (step_out self (promise_settled p (fulfilled b)) w')).
  split; [rewrite step_output; apply responses_app|].
  unfold step_out. rewrite responses_fulfilled.
  apply (in_map (fun pr => with_body b (reaction_response (snd pr)))
           _ (p, reaction_of request)).
  apply filter_In. split; [exact Hin|].
  unfold on_promise. simpl. apply Nat.eqb_refl.
Qed.

Lemma filter_filter_nil {A : Type} (f g : A -> bool) (l : list A) :
  filter f l = [] -> filter f (filter g l) = [].
Proof.
  induction l as [|x l IH]; simpl; [reflexivity|].
  destruct (f x) eqn:Ef; [discriminate|]. intros H.
  destruct (g x); simpl; [rewrite Ef|]; apply IH; exact H.
Qed.

(** X6. Responses follow completion order, each with its own body.  Two
    requests are dispatched one after the other and get distinct promises
    (which nothing else awaits); the second promise is fulfilled first.
    Exactly two responses are sent: first the one to the second request
    with the second body, then the one to the first request with the
    first body. *)
Theorem responses_follow_completion (self : WebKitDebugSession)
    (r1 r2 : Request) (p1 p2 : PromiseId) (b1 b2 : JS.Value) (w : World) :
  proxy_dispatchRequest (_adapterProxy self) r1 = promise p1 ->
  proxy_dispatchRequest (_adapterProxy self) r2 = promise p2 ->
  p1 <> p2 ->
  filter (on_promise p1) (reactions w) = [] ->
  filter (on_promise p2) (reactions w) = [] ->
  responses
    (out (run self
            [client_request r1; client_request r2;
             promise_settled p2 (fulfilled b2);
             promise_settled p1 (fulfilled b1)] w)) =
  responses (out w)
  ++ [with_body b2 (new_Response r2); with_body b1 (new_Response r1)].
Proof.
  intros H1 H2 Hne F1 F2.
  change (run self
            [client_request r1; client_request r2;
             promise_settled p2 (fulfilled b2);
             promise_settled p1 (fulfilled b1)] w)
    with (step self (promise_settled p1 (fulfilled b1))
            (step self (promise_settled p2 (fulfilled b2))
               (step self (client_request r2)
                  (step self (client_request r1) w)))).
  set (w1 := step self (client_request r1) w).
  set (w2 := step self (client_request r2) w1).
  set (w3 := step self (promise_settled p2 (fulfilled b2)) w2).
  assert (R1 : reactions w1 = reactions w ++ [(p1, reaction_of r1)]).
  { unfold w1. rewrite step_pending. simpl. unfold dispatch_reactions.
    rewrite H1. reflexivity. }
  assert (R2 : reactions w2 =
               (reactions w ++ [(p1, reaction_of r1)])
               ++ [(p2, reaction_of r2)]).
  { unfold w2. rewrite step_pending. simpl. unfold dispatch_reactions.
    rewrite H2, R1. reflexivity. }
  assert (E12 : Nat.eqb p1 p2 = false) by (apply Nat.eqb_neq; exact Hne).
  assert (E21 : Nat.eqb p2 p1 = false)
    by (apply Nat.eqb_neq; intros E; apply Hne; symmetry; exact E).
  assert (On2 : filter (on_promise p2) (reactions w2) = [(p2, reaction_of r2)]).
  { rewrite R2, !filter_app, F2. simpl. unfold on_promise. simpl.
    rewrite E12, Nat.eqb_refl. reflexivity. }
  assert (On1 : filter (on_promise p1) (reactions w3) = [(p1, reaction_of r1)]).
  { unfold w3. rewrite step_pending. simpl. rewrite R2, !filter_app.
    rewrite (filter_filter_nil _ _ _ F1). simpl. unfold on_promise. simpl.
    rewrite E12. simpl. rewrite Nat.eqb_refl, Nat.eqb_refl. reflexivity. }
  rewrite step_output, responses_app. unfold step_out.
  rewrite responses_fulfilled, On1.
  unfold w3 at 1. rewrite step_output, responses_app. unfold step_out.
  rewrite responses_fulfilled, On2.
  assert (O2 : responses (out w2) = responses (out w)).
  { unfold w2, w1. rewrite !step_output, !responses_app. unfold step_out.
    rewrite !responses_app, !responses_log_line. unfold dispatch_out.
    rewrite H1, H2. simpl. rewrite !app_nil_r. reflexivity. }
  rewrite O2, <- app_assoc. reflexivity.
Qed.

(** X7. Fulfilling a promise answers every request that awaits it, once
    each.  The responses sent are exactly those of the continuations
    attached to the promise, in the order the requests were dispatched,
    each with success still true and the body of the fulfilment; after
    that nothing awaits the promise, so settling it again sends nothing. *)
Theorem fulfilment_answers_all_waiting (self : WebKitDebugSession)
    (p : PromiseId) (b : JS.Value) (w : World) :
  let w' := step self (promise_settled p (fulfilled b)) w in
  responses (out w') =
    responses (out w)
    ++ map (fun pr => with_body b (reaction_response (snd pr)))
         (filter (on_promise p) (reactions w)) /\
  filter (on_promise p) (reactions w') = [] /\
  forall o, out (step self (promise_settled p o) w') = out w'.
Proof.
  intros w'.
  assert (Hnone : filter (on_promise p) (reactions w') = []).
  { unfold w'. rewrite step_pending. simpl. apply filter_off_on. }
  split; [|split].
  - unfold w'. rewrite step_output, responses_app. unfold step_out.
    rewrite responses_fulfilled. reflexivity.
  - exact Hnone.
  - intros o. rewrite step_output. unfold step_out. rewrite Hnone.
    simpl. apply app_nil_r.
Qed.

Lemma logged_traffic_app (a b : list Output) :
  logged_traffic a -> logged_traffic b -> logged_traffic (a ++ b).
Proof.
  intros Ha Hb. induction Ha; simpl; [exact Hb| | | |];
    constructor; exact IHHa.
Qed.

Lemma logged_send_out (r : Response) : logged_traffic (send_out true r).
Proof. apply logged_response, logged_nil. Qed.

Lemma logged_react_out (o : Settlement) (rx : Reaction) :
  logged_traffic (react_out true o rx).
Proof.
  unfold react_out. destruct o as [b|e]; [apply logged_send_out|].
  destruct (JS.toString e) as [s|]; [|apply logged_uncaught, logged_nil].
  destruct (s =? "unknowncommand")%string; [apply logged_send_out|].
  apply logged_line, logged_send_out.
Qed.

Lemma logged_step_out (self : WebKitDebugSession) (s : Stimulus) (w : World) :
  logging_allowed w = true -> logged_traffic (step_out self s w).
Proof.
  intros Hon. unfold step_out. rewrite Hon.
  destruct s as [request|p o|ev|cb].
  - apply logged_line. unfold dispatch_out.
    destruct (proxy_dispatchRequest (_adapterProxy self) request) as [p|e];
      [apply logged_nil|].
    destruct (JS.get_message e);
      [apply logged_send_out|apply logged_uncaught, logged_nil].
  - induction (filter (on_promise p) (reactions w)) as [|pr l IH];
      [apply logged_nil|].
    cbn [flat_map]. apply logged_traffic_app; [apply logged_react_out|exact IH].
  - apply logged_event, logged_nil.
  - destruct cb. apply logged_line, logged_nil.
Qed.

Lemma logged_run (self : WebKitDebugSession) (ss : list Stimulus) (w : World) :
  logging_allowed w = true ->
  logged_traffic (out w) ->
  logged_traffic (out (run self ss w)).
Proof.
  unfold run. revert w. induction ss as [|s ss IH]; intros w Hon Hw; simpl;
    [exact Hw|].
  apply IH.
  - rewrite step_logging. exact Hon.
  - rewrite step_output.
    apply logged_traffic_app; [exact Hw|apply logged_step_out; exact Hon].
Qed.

Lemma logged_before_response (o a b : list Output) (r : Response) :
  logged_traffic o ->
  o = a ++ to_client_response r :: b ->
  exists a', a = a' ++ [console_log ("To client: " ++ JSON_stringify_response r)].
Proof.
  intros H. revert a. induction H; intros a E.
  - destruct a; discriminate.
  - destruct a as [|c a]; [discriminate|]. inversion E; subst.
    destruct (IHlogged_traffic a eq_refl) as [a' Ha]. subst.
    exists (console_log l :: a'). reflexivity.
  - destruct a as [|c a]; [discriminate|]. inversion E; subst.
    destruct (IHlogged_traffic a eq_refl) as [a' Ha]. subst.
    exists (uncaught e :: a'). reflexivity.
  - destruct a as [|c [|d a]]; [discriminate| |].
    + inversion E; subst. exists []. reflexivity.
    + inversion E; subst.
      destruct (IHlogged_traffic a eq_refl) as [a' Ha]. subst.
      eexists (_ :: _ :: a'). reflexivity.
  - destruct a as [|c [|d a]]; [discriminate|discriminate|].
    inversion E; subst.
    destruct (IHlogged_traffic a eq_refl) as [a' Ha]. subst.
    eexists (_ :: _ :: a'). reflexivity.
Qed.

Lemma logged_before_event (o a b : list Output) (ev : Event) :
  logged_traffic o ->
  o = a ++ to_client_event ev :: b ->
  exists a', a = a' ++ [console_log ("To client: " ++ JSON_stringify_event ev)].
Proof.
  intros H. revert a. induction H; intros a E.
  - destruct a; discriminate.
  - destruct a as [|c a]; [discriminate|]. inversion E; subst.
    destruct (IHlogged_traffic a eq_refl) as [a' Ha]. subst.
    exists (console_log l :: a'). reflexivity.
  - destruct a as [|c a]; [discriminate|]. inversion E; subst.
    destruct (IHlogged_traffic a eq_refl) as [a' Ha]. subst.
    exists (uncaught e :: a'). reflexivity.
  - destruct a as [|c [|d a]]; [discriminate|discriminate|].
    inversion E; subst.
    destruct (IHlogged_traffic a eq_refl) as [a' Ha]. subst.
    eexists (_ :: _ :: a'). reflexivity.
  - destruct a as [|c [|d a]]; [discriminate| |].
    + inversion E; subst. exists []. reflexivity.
    + inversion E; subst.
      destruct (IHlogged_traffic a eq_refl) as [a' Ha]. subst.
      eexists (_ :: _ :: a'). reflexivity.
Qed.

(** X8. With logging on, all outbound traffic is logged.  In a world where
    logging is allowed and whose earlier traffic was logged, whatever the
    session then serves, every response and every event handed to the
    transport comes directly after the console line "To client: ..." that
    shows it, error responses included. *)
Theorem traffic_is_logged (self : WebKitDebugSession) (ss : list Stimulus)
    (w : World) :
  logging_allowed w = true ->
  logged_traffic (out w) ->
  let o := out (run self ss w) in
  (forall a r b,
     o = a ++ to_client_response r :: b ->
     exists a',
       a = a' ++ [console_log ("To client: " ++ JSON_stringify_response r)]) /\
  (forall a ev b,
     o = a ++ to_client_event ev :: b ->
     exists a',
       a = a' ++ [console_log ("To client: " ++ JSON_stringify_event ev)]).
Proof.
  intros Hon Hw o.
  pose proof (logged_run self ss w Hon Hw) as H. fold o in H.
  split.
  - intros a r b E. exact (logged_before_response o a b r H E).
  - intros a ev b E. exact (logged_before_event o a b ev H E).
Qed.

(** X9. With logging on, an inbound request is logged before anything
    else happens for it: the first output of its dispatch is the line
    "From client: command(arguments)", whether the adapter proxy returns a
    promise or throws, and also when the handler of the throw faults in
    its turn. *)
Theorem inbound_request_logged_first (self : WebKitDebugSession)
    (request : Request) (w : World) :
  logging_allowed w = true ->
  (exists rest,
     out (world_of (dispatchRequest self request w)) =
       out w ++ console_log (from_client request) :: rest) /\
  out (step self (client_request request) w) =
    out w ++ console_log (from_client request)
          :: dispatch_out true self request.
Proof.
  intros Hon. split; [|rewrite step_output; unfold step_out; rewrite Hon;
                       reflexivity].
  unfold dispatchRequest, try_catch, bind.
  rewrite Logger_log_run. unfold logged. rewrite Hon.
  unfold AdapterProxy_dispatchRequest.
  destruct (proxy_dispatchRequest (_adapterProxy self) request) as [p|e].
  - exists []. reflexivity.
  - unfold throw, get_message. destruct (JS.get_message e) as [m|].
    + unfold ret, sendErrorResponse. rewrite sendResponse_out.
      eexists. simpl. rewrite <- app_assoc. reflexivity.
    + exists []. reflexivity.
Qed.

Lemma transport_app (a b : list Output) :
  transport (a ++ b) = transport a ++ transport b.
Proof.
  induction a as [|o a IH]; simpl; [reflexivity|].
  destruct o; simpl; rewrite IH; reflexivity.
Qed.

Lemma transport_log_line (on : bool) (msg : string) :
  transport (log_line on msg) = [].
Proof. destruct on; reflexivity. Qed.

Lemma transport_send_out (on : bool) (r : Response) :
  transport (send_out on r) = [to_client_response r].
Proof.
  unfold send_out. rewrite transport_app, transport_log_line. reflexivity.
Qed.

Lemma transport_react_out (on on' : bool) (o : Settlement) (rx : Reaction) :
  transport (react_out on o rx) = transport (react_out on' o rx).
Proof.
  unfold react_out. destruct o as [b|e].
  - rewrite !transport_send_out. reflexivity.
  - destruct (JS.toString e) as [s|]; [|reflexivity].
    destruct (s =? "unknowncommand")%string.
    + rewrite !transport_send_out. reflexivity.
    + rewrite !transport_app, !transport_log_line, !transport_send_out.
      reflexivity.
Qed.

Lemma transport_step_out (self : WebKitDebugSession) (s : Stimulus)
    (w v : World) :
  reactions w = reactions v ->
  transport (step_out self s w) = transport (step_out self s v).
Proof.
  intros Hr. unfold step_out. destruct s as [request|p o|ev|cb].
  - rewrite !transport_app, !transport_log_line. unfold dispatch_out.
    destruct (proxy_dispatchRequest (_adapterProxy self) request) as [p|e];
      [reflexivity|].
    destruct (JS.get_message e); [|reflexivity].
    rewrite !transport_send_out. reflexivity.
  - rewrite Hr.
    induction (filter (on_promise p) (reactions v)) as [|pr l IH];
      [reflexivity|].
    cbn [flat_map]. rewrite !transport_app, IH.
    rewrite (transport_react_out (logging_allowed w) (logging_allowed v)).
    reflexivity.
  - rewrite !transport_app, !transport_log_line. reflexivity.
  - destruct cb. rewrite !transport_log_line. reflexivity.
Qed.

(** X10. Logging is transparent to the protocol.  Two worlds with the
    same pending continuations, whatever their logger and logging flag,
    served the same run, hand the same responses and events to the
    transport (and fault at the same places), in the same order, and end
    with the same pending continuations. *)
Theorem logging_is_transparent (self : WebKitDebugSession)
    (ss : list Stimulus) (w v : World) :
  reactions w = reactions v ->
  exists t,
    transport (out (run self ss w)) = transport (out w) ++ t /\
    transport (out (run self ss v)) = transport (out v) ++ t /\
    reactions (run self ss w) = reactions (run self ss v).
Proof.
  unfold run. revert w v. induction ss as [|s ss IH]; intros w v Hr; simpl.
  - exists []. rewrite !app_nil_r. auto.
  - assert (Hr' : reactions (step self s w) = reactions (step self s v)).
    { rewrite !step_pending. destruct s; simpl; rewrite Hr; reflexivity. }
    destruct (IH _ _ Hr') as (t & Hw & Hv & Hre).
    exists (transport (step_out self s v) ++ t).
    rewrite Hw, Hv, !step_output, !transport_app.
    rewrite (transport_step_out self s w v Hr), <- !app_assoc. auto.
Qed.

Lemma construct_all_cons (m : bool) (modes : list bool)
    (proxy : AdapterProxy) (w : World) :
  construct_all (m :: modes) proxy w =
  construct_all modes proxy (world_of (new_WebKitDebugSession m proxy w)).
Proof. reflexivity. Qed.

Lemma construct_all_app (modes : list bool) (isServer : bool)
    (proxy : AdapterProxy) (w : World) :
  world_of (construct_all (modes ++ [isServer]) proxy w) =
  world_of (new_WebKitDebugSession isServer proxy
              (world_of (construct_all modes proxy w))).
Proof.
  revert w. induction modes as [|m modes IH]; intros w; [reflexivity|].
  cbn [app]. rewrite !construct_all_cons. apply IH.
Qed.

Lemma construct_all_frame (modes : list bool) (proxy : AdapterProxy)
    (w : World) :
  let w' := world_of (construct_all modes proxy w) in
  ALLOW_LOGGING w' = ALLOW_LOGGING w /\
  intervals w' = intervals w ++ repeat (Logger_tick, 1000%Z) (length modes) /\
  reactions w' = reactions w /\
  out w' = out w.
Proof.
  revert w. induction modes as [|m modes IH]; intros w.
  - simpl. rewrite app_nil_r. auto.
  - rewrite construct_all_cons.
    destruct (IH (world_of (new_WebKitDebugSession m proxy w)))
      as (Ha & Hi & Hr & Ho).
    simpl in *. rewrite Ha, Hi, Hr, Ho, <- app_assoc. auto.
Qed.

(** X11. The logger is shared by all sessions, and the last one
    constructed decides.  After any number of sessions, the logger is the
    one of the last session, so logging is on exactly when that session is
    in server mode and [ALLOW_LOGGING] is set, whatever the earlier
    sessions asked for; every construction registers one more separator
    timer, none is ever cleared; and constructing sessions writes nothing
    and touches no pending continuation. *)
Theorem last_session_decides_logging (modes : list bool) (isServer : bool)
    (proxy : AdapterProxy) (w : World) :
  let w' := world_of (construct_all (modes ++ [isServer]) proxy w) in
  _logger w' = Some {| _isServer := isServer |} /\
  logging_allowed w' = isServer && ALLOW_LOGGING w /\
  intervals w' =
    intervals w ++ repeat (Logger_tick, 1000%Z) (S (length modes)) /\
  reactions w' = reactions w /\
  out w' = out w.
Proof.
  intros w'. unfold w'. rewrite construct_all_app.
  destruct (construct_all_frame modes proxy w) as (Ha & Hi & Hr & Ho).
  unfold logging_allowed. simpl. rewrite Ha, Hi, Hr, Ho.
  repeat split.
  rewrite <- app_assoc. f_equal. symmetry. apply (repeat_cons (length modes)).
Qed.

End Runs.

(** *** Runs at an instance *)

Lemma pending_until_settled_witness :
  let w' :=
    @run terse_runtime (answering_session 0)
      [client_request evaluate_request; timer Logger_tick;
       promise_settled 3 (rejected JS.null)]
      initial_world in
  In (0, reaction_of evaluate_request) (reactions w') /\
  exists sent,
    responses
      (out (@step terse_runtime (answering_session 0)
              (promise_settled 0 (fulfilled (JS.number 2))) w')) =
      responses (out w') ++ sent /\
    In (with_body (JS.number 2) (new_Response evaluate_request)) sent.
Proof.
  destruct (@pending_until_settled terse_runtime (answering_session 0)
              evaluate_request 0
              [timer Logger_tick; promise_settled 3 (rejected JS.null)]
              initial_world eq_refl eq_refl) as [Hpending Hsent].
  split; [exact Hpending|exact (Hsent (JS.number 2))].
Defined.

Lemma responses_follow_completion_witness :
  responses
    (out (@run terse_runtime numbering_session
            [client_request evaluate_request; client_request scopes_request;
             promise_settled 8 (fulfilled (JS.array []));
             promise_settled 7 (fulfilled (JS.number 2))]
            server_world)) =
  [with_body (JS.array []) (new_Response scopes_request);
   with_body (JS.number 2) (new_Response evaluate_request)].
Proof.
  exact (@responses_follow_completion terse_runtime numbering_session
           evaluate_request scopes_request 7 8 (JS.number 2) (JS.array [])
           server_world eq_refl eq_refl ltac:(discriminate) eq_refl eq_refl).
Defined.

Lemma traffic_is_logged_witness :
  logging_allowed server_world = true /\
  forall a r b,
    out (@run terse_runtime numbering_session
           [client_request evaluate_request;
            promise_settled 7 (rejected (JS.str "unknowncommand"))]
           server_world) = a ++ to_client_response r :: b ->
    exists a', a = a' ++ [console_log "To client: {}"].
Proof.
  split; [reflexivity|].
  exact (proj1 (@traffic_is_logged terse_runtime numbering_session
                  [client_request evaluate_request;
                   promise_settled 7 (rejected (JS.str "unknowncommand"))]
                  server_world eq_refl (@logged_nil terse_runtime))).
Defined.

Lemma inbound_request_logged_first_witness :
  exists rest,
    out (world_of (@dispatchRequest terse_runtime (throwing_session JS.null)
                     evaluate_request server_world)) =
    console_log "From client: evaluate(null)" :: rest.
Proof.
  exact (proj1 (@inbound_request_logged_first terse_runtime
                  (throwing_session JS.null) evaluate_request server_world
                  eq_refl)).
Defined.

Lemma logging_is_transparent_witness :
  exists t,
    transport
      (out (@run terse_runtime numbering_session
              [client_request evaluate_request;
               promise_settled 7 (fulfilled JS.null)] initial_world)) = t /\
    transport
      (out (@run terse_runtime numbering_session
              [client_request evaluate_request;
               promise_settled 7 (fulfilled JS.null)] server_world)) = t.
Proof.
  destruct (@logging_is_transparent terse_runtime numbering_session
              [client_request evaluate_request;
               promise_settled 7 (fulfilled JS.null)]
              initial_world server_world eq_refl) as (t & Hw & Hv & _).
  exists t. split; [exact Hw|exact Hv].
Defined.

End SessionFacts.

(* ------------------------------------------------------------------ *)
(** ** Properties of the Chrome launcher *)

Module ChromeFacts.

Import Eff Chrome.

Section Launch.

Context {platform : Platform}.

Lemma truthy_nonempty (s : string) :
  s <> "" -> JS.truthy (Some s) = Some s.
Proof.
  intros H. simpl. destruct (String.eqb_spec s ""); [contradiction|reflexivity].
Qed.

Lemma truthy_idempotent (o : option string) (s : string) :
  JS.truthy o = Some s -> JS.truthy (Some s) = Some s.
Proof.
  destruct o as [t|]; simpl; [|discriminate].
  destruct (String.eqb_spec t ""); [discriminate|].
  intros E; inversion E; subst.
  destruct (String.eqb_spec s ""); [contradiction|reflexivity].
Qed.

Lemma spawned_argv_app (a b : list Effect) :
  spawned_argv (a ++ b) = spawned_argv a ++ spawned_argv b.
Proof.
  induction a as [|e a IH]; simpl; [reflexivity|].
  destruct e; simpl; rewrite IH; reflexivity.
Qed.

Lemma kills_app (a b : list Effect) : kills (a ++ b) = kills a ++ kills b.
Proof.
  induction a as [|e a IH]; simpl; [reflexivity|].
  destruct e; simpl; rewrite IH; reflexivity.
Qed.

(** What a launch does once an executable is found. *)
Lemma launch_run (args : ILaunchRequestArgs) (chromePath : string) (w : World) :
  (forall f, pathToFileURL f <> "") ->
  chromePath_of args = Some chromePath ->
  let port := JS.number_or (port args) 9222 in
  let attach := doAttach port (launchUrl_spec args) (address args) in
  launch args w =
  Normal (returned_by attach)
    {| _chromeProc := Some (spawned w);
       spawned := S (spawned w);
       listeners := listeners w ++ [(spawned w, "error", on_chrome_error)];
       trace :=
         trace w ++
         [setupLogging args;
          logger_log ("spawn('" ++ chromePath ++ "', "
                      ++ JSON_stringify (argv_spec args) ++ ")");
          spawn (spawned w) chromePath (argv_spec args) true ["ignore"];
          unref (spawned w);
          attach] |}.
Proof.
  intros Hurl Hpath. unfold launch, bind. simpl. rewrite Hpath.
  unfold argv_spec, launchUrl_spec, supplied.
  destruct (runtimeArgs args) as [extra|];
    destruct (JS.truthy (userDataDir args)) as [dir|];
    destruct (JS.truthy (file args)) as [f|];
    try rewrite (truthy_nonempty _ (Hurl f));
    try (destruct (JS.truthy (url args)) as [u|] eqn:Eu;
         [rewrite (truthy_idempotent _ _ Eu)|]);
    simpl; rewrite <- ?app_assoc; simpl; rewrite ?app_nil_r; reflexivity.
Qed.


(** C4. Once an executable is found, a launch spawns one process whose
    argument list is, in this order: the remote-debugging-port flag (the
    port defaulting to 9222), --no-first-run, --no-default-browser-check,
    the caller's runtime arguments verbatim, a --user-data-dir flag only
    if a user-data directory is supplied, and last the launch URL (the
    file as a file URL, else the url) only if a file or url is supplied.
    With port 9000, runtime arguments ["--foo"], user-data directory
    "/tmp/d" and file "/a/b.html" the list is the one of the
    specification; with neither file nor url no navigation argument is
    appended, and the process is spawned all the same. *)
Theorem launch_argv_in_order (args : ILaunchRequestArgs)
    (chromePath : string) (w : World) :
  (forall f, pathToFileURL f <> "") ->
  pathToFileURL "/a/b.html" = "file:///a/b.html" ->
  chromePath_of args = Some chromePath ->
  spawned_argv (trace (world_of (launch args w))) =
    spawned_argv (trace w) ++ [argv_spec args] /\
  (port args = None ->
     hd "" (argv_spec args) = "--remote-debugging-port=9222") /\
  (port args = Some 9000%Z -> runtimeArgs args = Some ["--foo"] ->
   userDataDir args = Some "/tmp/d" -> file args = Some "/a/b.html" ->
     argv_spec args =
       ["--remote-debugging-port=9000"; "--no-first-run";
        "--no-default-browser-check"; "--foo"; "--user-data-dir=/tmp/d";
        "file:///a/b.html"]) /\
  (supplied (file args) = None -> supplied (url args) = None ->
     spawned_argv (trace (world_of (launch args w))) =
       spawned_argv (trace w) ++
       [[("--remote-debugging-port="
            ++ JS.number_to_string (JS.number_or (port args) 9222))%string;
         "--no-first-run"; "--no-default-browser-check"]
        ++ match runtimeArgs args with Some extra => extra | None => [] end
        ++ match supplied (userDataDir args) with
           | Some dir => [("--user-data-dir=" ++ dir)%string]
           | None => []
           end]).
Proof.
  intros Hurl Hex Hpath.
  assert (Hspawn : spawned_argv (trace (world_of (launch args w))) =
                   spawned_argv (trace w) ++ [argv_spec args]).
  { rewrite (launch_run args chromePath w Hurl Hpath). simpl.
    rewrite spawned_argv_app. reflexivity. }
  split; [exact Hspawn|]. split; [|split].
  - intros Hport. unfold argv_spec. rewrite Hport. reflexivity.
  - intros Hport Hextra Hdir Hfile. unfold argv_spec, launchUrl_spec, supplied.
    rewrite Hport, Hextra, Hdir, Hfile. simpl. rewrite Hex. reflexivity.
  - intros Hfile Hu. rewrite Hspawn. unfold argv_spec, launchUrl_spec.
    rewrite Hfile, Hu. rewrite app_nil_r. reflexivity.
Qed.

(** C9. A configuration that supplies both a file and a url launches
    without fault and the file wins: the argument list ends with the file
    converted to a file URL, the attach is given that URL, and the url
    supplied has no influence on the arguments or on the promise
    returned. *)
Theorem file_takes_precedence (args : ILaunchRequestArgs)
    (chromePath f u : string) (w : World) :
  (forall f, pathToFileURL f <> "") ->
  chromePath_of args = Some chromePath ->
  supplied (file args) = Some f ->
  supplied (url args) = Some u ->
  exists w' attach front,
    launch args w = Normal (returned_by attach) w' /\
    attach = doAttach (JS.number_or (port args) 9222)
               (Some (pathToFileURL f)) (address args) /\
    spawned_argv (trace w') =
      spawned_argv (trace w) ++ [front ++ [pathToFileURL f]] /\
    forall u',
      exists w'',
        launch (with_url u' args) w = Normal (returned_by attach) w'' /\
        spawned_argv (trace w'') = spawned_argv (trace w').
Proof.
  intros Hurl Hpath Hfile Hu.
  assert (Hl : launchUrl_spec args = Some (pathToFileURL f)).
  { unfold launchUrl_spec. rewrite Hfile. reflexivity. }
  assert (Hl' : forall u',
             launchUrl_spec (with_url u' args) = Some (pathToFileURL f)).
  { intros u'. unfold launchUrl_spec. simpl. fold (supplied (file args)).
    rewrite Hfile. reflexivity. }
  assert (Hv : forall u', argv_spec (with_url u' args) = argv_spec args).
  { intros u'. unfold argv_spec. rewrite Hl', Hl. reflexivity. }
  eexists. eexists. eexists.
  split; [apply (launch_run args chromePath w Hurl Hpath)|].
  split; [rewrite Hl; reflexivity|]. split.
  - simpl. rewrite spawned_argv_app. simpl. unfold argv_spec at 1.
    rewrite Hl. rewrite !app_assoc. reflexivity.
  - intros u'. eexists. split.
    + rewrite (launch_run (with_url u' args) chromePath w Hurl Hpath).
      rewrite Hl', Hl. reflexivity.
    + simpl. rewrite !spawned_argv_app. simpl. rewrite Hv. reflexivity.
Qed.

(** C6. With no executable-path override and nothing found by the
    platform's discovery, a launch returns at once a promise rejected
    with the error "Can't find Chrome ..."; it spawns no process: its only
    effect is the logging set-up, and the process handle, the count of
    spawned processes and the listeners are untouched. *)
Theorem launch_without_executable (args : ILaunchRequestArgs) (w : World) :
  JS.truthy (runtimeExecutable args) = None ->
  JS.truthy getBrowserPath = None ->
  exists w',
    launch args w = Normal (rejected (JS.error "Error" cannot_find_chrome)) w' /\
    trace w' = trace w ++ [setupLogging args] /\
    spawned_argv (trace w') = spawned_argv (trace w) /\
    spawned w' = spawned w /\
    _chromeProc w' = _chromeProc w /\
    listeners w' = listeners w.
Proof.
  intros Hexe Hfound. unfold launch, bind, chromePath_of. simpl.
  rewrite Hexe, Hfound. eexists. split; [reflexivity|]. simpl.
  repeat split. rewrite spawned_argv_app. simpl. apply app_nil_r.
Qed.


Lemma emit_to_others (ls rest : list (ChildProcess * string * Listener))
    (p : ChildProcess) (name : string) (err : JS.Value) (w : World) :
  (forall q n l, In (q, n, l) ls -> q <> p) ->
  emit_to (ls ++ rest) p name err w = emit_to rest p name err w.
Proof.
  induction ls as [|[[q n] l] ls IH]; intros H; simpl; [reflexivity|].
  destruct (Nat.eqb_spec q p) as [E|E].
  - exfalso. apply (H q n l); [left; reflexivity|exact E].
  - simpl. apply IH. intros q' n' l' Hin. apply (H q' n' l'). right. exact Hin.
Qed.

(** What a launch leaves in the adapter once an executable is found,
    whatever the arguments are. *)
Lemma launch_registers (args : ILaunchRequestArgs) (chromePath : string)
    (w : World) :
  chromePath_of args = Some chromePath ->
  exists attach w1,
    launch args w = Normal (returned_by attach) w1 /\
    _chromeProc w1 = Some (spawned w) /\
    spawned w1 = S (spawned w) /\
    listeners w1 = listeners w ++ [(spawned w, "error", on_chrome_error)].
Proof.
  intros Hpath. unfold launch, bind. simpl. rewrite Hpath.
  eexists. eexists. split; [reflexivity|]. simpl. auto.
Qed.

(** Launching keeps the listeners on processes already spawned. *)
Lemma launch_well_formed (args : ILaunchRequestArgs) (w : World) :
  well_formed w -> well_formed (world_of (launch args w)).
Proof.
  intros Hwf. destruct (chromePath_of args) as [chromePath|] eqn:Hpath.
  - destruct (launch_registers args chromePath w Hpath)
      as (attach & w1 & Hrun & _ & Hcount & Hls).
    rewrite Hrun. simpl. intros q n l Hin. rewrite Hls in Hin.
    rewrite Hcount. apply in_app_or in Hin. destruct Hin as [Hin|Hin].
    + apply Hwf in Hin. lia.
    + destruct Hin as [E|[]]. inversion E. lia.
  - unfold launch, bind. simpl. rewrite Hpath. simpl. exact Hwf.
Qed.

(** C7. After a launch that spawned the child process, every error event
    the child reports runs the registered observer, which logs the error
    and then terminates the session: these are its only two effects (no
    process is spawned again), it completes normally (nothing is thrown
    back), and the process handle stays as the launch left it. *)
Theorem chrome_error_terminates_session (args : ILaunchRequestArgs)
    (chromePath : string) (err : JS.Value) (w : World) :
  well_formed w ->
  chromePath_of args = Some chromePath ->
  exists p attach w1 w2,
    launch args w = Normal (returned_by attach) w1 /\
    _chromeProc w1 = Some p /\
    emit p "error" err w1 = Normal tt w2 /\
    trace w2 =
      trace w1 ++ [logger_log ("chrome error: " ++ JS.ToString err);
                   terminateSession] /\
    spawned_argv (trace w2) = spawned_argv (trace w1) /\
    _chromeProc w2 = _chromeProc w1 /\
    spawned w2 = spawned w1.
Proof.
  intros Hwf Hpath.
  destruct (launch_registers args chromePath w Hpath)
    as (attach & w1 & Hrun & Hproc & Hcount & Hls).
  exists (spawned w), attach, w1. eexists.
  split; [exact Hrun|]. split; [exact Hproc|].
  unfold emit. rewrite Hls, emit_to_others.
  - simpl. rewrite Nat.eqb_refl. simpl. unfold bind. simpl.
    split; [reflexivity|]. simpl.
    split; [rewrite <- app_assoc; reflexivity|].
    split; [|split; reflexivity].
    rewrite !spawned_argv_app. simpl. rewrite !app_nil_r. reflexivity.
  - intros q n l Hin E. apply Hwf in Hin. lia.
Qed.


End Launch.

(** C5. Disconnect never faults and leaves no process handle behind.  If
    a handle is held, SIGINT is sent to that process and the handle is
    cleared; in every case the base teardown is called afterwards and its
    promise returned.  A second disconnect only calls the base teardown
    again, and so does a disconnect on an adapter that never launched. *)
Theorem disconnect_idempotent (w : World) :
  exists w1 w2,
    disconnect w = Normal (returned_by super_disconnect) w1 /\
    _chromeProc w1 = None /\
    trace w1 =
      trace w
      ++ match _chromeProc w with
         | Some p => [kill p "SIGINT"]
         | None => []
         end
      ++ [super_disconnect] /\
    disconnect w1 = Normal (returned_by super_disconnect) w2 /\
    _chromeProc w2 = None /\
    trace w2 = trace w1 ++ [super_disconnect] /\
    disconnect initial_world =
      Normal (returned_by super_disconnect)
        {| _chromeProc := None; spawned := 0; listeners := [];
           trace := [super_disconnect] |}.
Proof.
  assert (Hnone : forall v, _chromeProc v = None ->
            disconnect v =
            Normal (returned_by super_disconnect)
              {| _chromeProc := None; spawned := spawned v;
                 listeners := listeners v;
                 trace := trace v ++ [super_disconnect] |}).
  { intros v Hv. unfold disconnect, bind. rewrite Hv. simpl.
    rewrite Hv. reflexivity. }
  destruct (_chromeProc w) as [p|] eqn:E.
  - exists {| _chromeProc := None; spawned := spawned w;
              listeners := listeners w;
              trace := trace w ++ [kill p "SIGINT"] ++ [super_disconnect] |}.
    eexists.
    split; [unfold disconnect, bind; rewrite E; simpl;
            rewrite <- app_assoc; reflexivity|].
    split; [reflexivity|]. split; [reflexivity|].
    split; [apply Hnone; reflexivity|].
    split; [reflexivity|]. split; [reflexivity|].
    apply Hnone; reflexivity.
  - eexists. eexists.
    split; [apply Hnone; exact E|].
    split; [reflexivity|]. split; [reflexivity|].
    split; [apply Hnone; reflexivity|].
    split; [reflexivity|]. split; [reflexivity|].
    apply Hnone; reflexivity.
Qed.

(** C10. [clearEverything] sets the process handle to null and sends no
    signal: its only effect is the base class's [clearEverything].  A
    disconnect that follows sends no kill signal either and only calls the
    base teardown. *)
Theorem clearEverything_sends_no_signal (w : World) :
  exists w1 w2,
    clearEverything w = Normal tt w1 /\
    _chromeProc w1 = None /\
    trace w1 = trace w ++ [super_clearEverything] /\
    disconnect w1 = Normal (returned_by super_disconnect) w2 /\
    trace w2 = trace w1 ++ [super_disconnect] /\
    _chromeProc w2 = None /\
    kills (trace w2) = kills (trace w).
Proof.
  eexists. eexists. split; [reflexivity|]. simpl.
  split; [reflexivity|]. split; [reflexivity|].
  split; [reflexivity|]. simpl. split; [reflexivity|].
  split; [reflexivity|].
  rewrite !kills_app. simpl. rewrite !app_nil_r. reflexivity.
Qed.

(** *** At an instance *)

Lemma file_url_nonempty (path : string) : file_url path <> "".
Proof. unfold file_url. simpl. discriminate. Qed.

Lemma initial_world_well_formed : well_formed initial_world.
Proof. intros q n l H. destruct H. Qed.

Lemma launch_argv_in_order_witness :
  spawned_argv
    (trace (world_of (@launch linux_with_chrome example_args initial_world))) =
  [["--remote-debugging-port=9000"; "--no-first-run";
    "--no-default-browser-check"; "--foo"; "--user-data-dir=/tmp/d";
    "file:///a/b.html"]].
Proof.
  destruct (@launch_argv_in_order linux_with_chrome example_args
              "/usr/bin/google-chrome" initial_world
              file_url_nonempty eq_refl eq_refl)
    as (Hs & _ & Hex & _).
  rewrite Hs, (Hex eq_refl eq_refl eq_refl eq_refl). reflexivity.
Defined.

Lemma file_takes_precedence_witness :
  exists w' front,
    @launch linux_with_chrome both_args initial_world =
    Normal (returned_by (doAttach 9000 (Some "file:///a/b.html") None)) w' /\
    spawned_argv (trace w') = [front ++ ["file:///a/b.html"]].
Proof.
  destruct (@file_takes_precedence linux_with_chrome both_args
              "/usr/bin/google-chrome" "/a/b.html" "http://localhost:8080/"
              initial_world file_url_nonempty eq_refl eq_refl eq_refl)
    as (w' & attach & front & Hrun & Hattach & Hargv & _).
  exists w', front. rewrite Hrun, Hattach. split; [reflexivity|exact Hargv].
Defined.

Lemma launch_without_executable_witness :
  exists w',
    @launch linux_without_chrome example_args initial_world =
    Normal (rejected (JS.error "Error" cannot_find_chrome)) w' /\
    trace w' = [setupLogging example_args].
Proof.
  destruct (@launch_without_executable linux_without_chrome example_args
              initial_world eq_refl eq_refl)
    as (w' & Hrun & Htrace & _).
  exists w'. split; [exact Hrun|exact Htrace].
Defined.

Lemma chrome_error_terminates_session_witness :
  exists p w1 w2,
    _chromeProc w1 = Some p /\
    emit p "error" (JS.error "Error" "spawn ENOENT") w1 = Normal tt w2 /\
    trace w2 =
      trace w1 ++ [logger_log "chrome error: Error: spawn ENOENT";
                   terminateSession].
Proof.
  destruct (@chrome_error_terminates_session linux_with_chrome example_args
              "/usr/bin/google-chrome" (JS.error "Error" "spawn ENOENT")
              initial_world initial_world_well_formed eq_refl)
    as (p & attach & w1 & w2 & _ & Hp & Hemit & Htrace & _).
  exists p, w1, w2. split; [exact Hp|]. split; [exact Hemit|exact Htrace].
Defined.

(** *** Sequences of operations *)

Section Lifecycle.

Context {platform : Platform}.

Lemma spawned_processes_app (a b : list Effect) :
  spawned_processes (a ++ b) = spawned_processes a ++ spawned_processes b.
Proof.
  induction a as [|e a IH]; simpl; [reflexivity|].
  destruct e; simpl; rewrite IH; reflexivity.
Qed.

Lemma spawned_commands_app (a b : list Effect) :
  spawned_commands (a ++ b) = spawned_commands a ++ spawned_commands b.
Proof.
  induction a as [|e a IH]; simpl; [reflexivity|].
  destruct e; simpl; rewrite IH; reflexivity.
Qed.

(** A launch that finds an executable, whatever the platform's converter
    gives. *)
Lemma launch_found (args : ILaunchRequestArgs) (chromePath : string)
    (w : World) :
  chromePath_of args = Some chromePath ->
  let port := JS.number_or (port args) 9222 in
  let attach := doAttach port (launchUrl_spec args) (address args) in
  launch args w =
  Normal (returned_by attach)
    {| _chromeProc := Some (spawned w);
       spawned := S (spawned w);
       listeners := listeners w ++ [(spawned w, "error", on_chrome_error)];
       trace :=
         trace w ++
         [setupLogging args;
          logger_log ("spawn('" ++ chromePath ++ "', "
                      ++ JSON_stringify (argv_of args) ++ ")");
          spawn (spawned w) chromePath (argv_of args) true ["ignore"];
          unref (spawned w);
          attach] |}.
Proof.
  intros Hpath. unfold launch, bind. simpl. rewrite Hpath.
  unfold argv_of, launchUrl_spec, supplied.
  destruct (runtimeArgs args) as [extra|];
    destruct (JS.truthy (userDataDir args)) as [dir|];
    destruct (JS.truthy (file args)) as [f|];
    try (destruct (JS.truthy (Some (pathToFileURL f))) as [u|]);
    try (destruct (JS.truthy (url args)) as [u|] eqn:Eu;
         [rewrite (truthy_idempotent _ _ Eu)|]);
    simpl; rewrite <- ?app_assoc; simpl; rewrite ?app_nil_r; reflexivity.
Qed.

Lemma launch_not_found (args : ILaunchRequestArgs) (w : World) :
  chromePath_of args = None ->
  launch args w = Normal (errP cannot_find_chrome) (traced [setupLogging args] w).
Proof. intros Hpath. unfold launch, bind. simpl. rewrite Hpath. reflexivity. Qed.

Lemma disconnect_run (w : World) :
  disconnect w =
  Normal (returned_by super_disconnect)
    {| _chromeProc := None;
       spawned := spawned w;
       listeners := listeners w;
       trace :=
         trace w
         ++ match _chromeProc w with
            | Some p => [kill p "SIGINT"]
            | None => []
            end
         ++ [super_disconnect] |}.
Proof.
  unfold disconnect, bind. destruct (_chromeProc w) as [p|] eqn:E; simpl.
  - rewrite <- app_assoc. reflexivity.
  - rewrite E. reflexivity.
Qed.

Lemma emit_to_run (ls : list (ChildProcess * string * Listener))
    (p : ChildProcess) (name : string) (err : JS.Value) (w : World) :
  exists es,
    emit_to ls p name err w = Normal tt (traced es w) /\
    kills es = [] /\ spawned_processes es = [].
Proof.
  revert w. induction ls as [|[[q n] l] ls IH]; intros w; simpl.
  - exists []. unfold ret, traced. rewrite app_nil_r. destruct w. auto.
  - destruct (Nat.eqb q p && (n =? name)%string); [|apply IH].
    destruct l. unfold bind. simpl.
    destruct (IH (traced [logger_log ("chrome error: " ++ JS.ToString err);
                          terminateSession] w)) as (es & Hrun & Hk & Hs).
    exists ([logger_log ("chrome error: " ++ JS.ToString err);
             terminateSession] ++ es).
    split; [|simpl; auto].
    unfold traced in *. simpl in *. rewrite <- !app_assoc in *. simpl in *.
    exact Hrun.
Qed.

(** X12. A launch followed by a disconnect signals the process just
    spawned, once.  After a launch that found an executable, disconnect
    sends exactly one signal, SIGINT, to the process that launch spawned,
    then calls the base teardown; the handle is cleared, and a further
    disconnect sends no signal. *)
Theorem launch_then_disconnect (args : ILaunchRequestArgs)
    (chromePath : string) (w : World) :
  chromePath_of args = Some chromePath ->
  let w1 := world_of (launch args w) in
  let w2 := world_of (disconnect w1) in
  let w3 := world_of (disconnect w2) in
  spawned_processes (trace w1) = spawned_processes (trace w) ++ [spawned w] /\
  kills (trace w1) = kills (trace w) /\
  trace w2 = trace w1 ++ [kill (spawned w) "SIGINT"; super_disconnect] /\
  _chromeProc w2 = None /\
  kills (trace w3) = kills (trace w) ++ [(spawned w, "SIGINT")].
Proof.
  intros Hpath w1 w2 w3.
  unfold w3, w2, w1. rewrite (launch_found args chromePath w Hpath).
  rewrite !disconnect_run. simpl.
  rewrite !spawned_processes_app, !kills_app. simpl.
  rewrite !app_nil_r. repeat split; reflexivity.
Qed.

(** X13. A second launch orphans the first process.  Launch overwrites
    the handle without signalling the process it held: after two launches
    that each found an executable, both processes have been spawned, and a
    disconnect signals only the second; the first is never sent a signal,
    not even by a further disconnect. *)
Theorem relaunch_orphans_first_process (args1 args2 : ILaunchRequestArgs)
    (path1 path2 : string) (w : World) :
  chromePath_of args1 = Some path1 ->
  chromePath_of args2 = Some path2 ->
  let w2 := world_of (launch args2 (world_of (launch args1 w))) in
  let w4 := world_of (disconnect (world_of (disconnect w2))) in
  spawned_processes (trace w2) =
    spawned_processes (trace w) ++ [spawned w; S (spawned w)] /\
  _chromeProc w2 = Some (S (spawned w)) /\
  kills (trace w4) = kills (trace w) ++ [(S (spawned w), "SIGINT")].
Proof.
  intros H1 H2 w2 w4. unfold w4, w2.
  rewrite (launch_found args1 path1 w H1). cbn [world_of].
  rewrite (launch_found args2 path2 _ H2). cbn [world_of].
  rewrite !disconnect_run. simpl.
  rewrite !spawned_processes_app, !kills_app. simpl.
  rewrite !app_nil_r, <- !app_assoc. repeat split; reflexivity.
Qed.

(** X14. The error listener outlives the teardown.  Neither disconnect nor
    clearEverything removes the listener that launch registered: an error
    event the child reports after them still logs the error and
    terminates the session. *)
Theorem error_listener_outlives_teardown (args : ILaunchRequestArgs)
    (chromePath : string) (err : JS.Value) (w : World) :
  well_formed w ->
  chromePath_of args = Some chromePath ->
  let w1 := world_of (launch args w) in
  let late :=
    [logger_log ("chrome error: " ++ JS.ToString err); terminateSession] in
  emit (spawned w) "error" err (world_of (disconnect w1)) =
    Normal tt (traced late (world_of (disconnect w1))) /\
  emit (spawned w) "error" err (world_of (clearEverything w1)) =
    Normal tt (traced late (world_of (clearEverything w1))).
Proof.
  intros Hwf Hpath w1 late. unfold w1.
  rewrite (launch_found args chromePath w Hpath). cbn [world_of].
  assert (Hothers : forall q n l, In (q, n, l) (listeners w) -> q <> spawned w).
  { intros q n l Hin E. apply Hwf in Hin. lia. }
  split.
  - rewrite disconnect_run. unfold emit. simpl.
    rewrite (emit_to_others _ _ _ _ _ _ Hothers). simpl.
    rewrite Nat.eqb_refl. simpl. unfold bind, traced. simpl.
    rewrite <- !app_assoc. reflexivity.
  - unfold emit. simpl.
    rewrite (emit_to_others _ _ _ _ _ _ Hothers). simpl.
    rewrite Nat.eqb_refl. simpl. unfold bind, traced. simpl.
    rewrite <- !app_assoc. reflexivity.
Qed.

(** X15. Chrome is told what the adapter attaches to.  In every launch
    that finds an executable, the port of the remote-debugging-port flag
    is the port given to the attach, the address given to the attach is
    the configured one, and the navigation argument, when there is one, is
    the last argument and is the URL given to the attach. *)
Theorem attach_matches_spawn (args : ILaunchRequestArgs)
    (chromePath : string) (w : World) :
  chromePath_of args = Some chromePath ->
  exists port url middle w',
    launch args w = Normal (returned_by (doAttach port url (address args))) w' /\
    spawned_argv (trace w') =
      spawned_argv (trace w)
      ++ [("--remote-debugging-port=" ++ JS.number_to_string port)%string
          :: middle
          ++ match JS.truthy url with Some u => [u] | None => [] end] /\
    In (doAttach port url (address args)) (trace w').
Proof.
  intros Hpath.
  exists (JS.number_or (port args) 9222), (launchUrl_spec args).
  exists ("--no-first-run" :: "--no-default-browser-check"
          :: match runtimeArgs args with Some extra => extra | None => [] end
          ++ match JS.truthy (userDataDir args) with
             | Some dir => [("--user-data-dir=" ++ dir)%string]
             | None => []
             end).
  eexists.
  split; [apply (launch_found args chromePath w Hpath)|].
  cbn [trace]. split.
  - rewrite spawned_argv_app. cbn [spawned_argv]. unfold argv_of.
    cbn [app]. rewrite <- app_assoc. reflexivity.
  - apply in_or_app. right. simpl. auto 6.
Qed.

(** X16. A url is passed on verbatim.  When no file is supplied (none, or
    the empty string) and a url is, the launch URL is that url itself: it
    is the last argument of the spawn and the URL given to the attach, and
    the platform's file-URL converter plays no part. *)
Theorem url_is_passed_verbatim (args : ILaunchRequestArgs)
    (chromePath u : string) (w : World) :
  chromePath_of args = Some chromePath ->
  supplied (file args) = None ->
  supplied (url args) = Some u ->
  exists front w',
    launch args w =
      Normal (returned_by (doAttach (JS.number_or (port args) 9222)
                             (Some u) (address args))) w' /\
    spawned_argv (trace w') = spawned_argv (trace w) ++ [front ++ [u]].
Proof.
  intros Hpath Hfile Hu.
  assert (Hl : launchUrl_spec args = Some u).
  { unfold launchUrl_spec. rewrite Hfile. exact Hu. }
  eexists. eexists.
  split; [rewrite <- Hl; apply (launch_found args chromePath w Hpath)|].
  simpl. rewrite spawned_argv_app. simpl. unfold argv_of.
  rewrite Hl, (truthy_idempotent _ _ Hu), !app_assoc. reflexivity.
Qed.

(** X17. The override precedes discovery.  The command a launch spawns is
    the runtimeExecutable of the configuration when that is supplied,
    whatever the platform's discovery finds; when it is not supplied (or
    empty) the command is what the discovery finds; when that finds
    nothing either, nothing is spawned. *)
Theorem override_precedes_discovery (args : ILaunchRequestArgs) (w : World) :
  spawned_commands (trace (world_of (launch args w))) =
  spawned_commands (trace w)
  ++ match JS.truthy (runtimeExecutable args) with
     | Some path => [path]
     | None =>
         match JS.truthy getBrowserPath with
         | Some found => [found]
         | None => []
         end
     end.
Proof.
  destruct (chromePath_of args) as [chromePath|] eqn:Hpath.
  - rewrite (launch_found args chromePath w Hpath). simpl.
    rewrite spawned_commands_app. simpl.
    unfold chromePath_of in Hpath.
    destruct (JS.truthy (runtimeExecutable args)) as [path|].
    + inversion Hpath. reflexivity.
    + rewrite Hpath. reflexivity.
  - rewrite (launch_not_found args w Hpath). simpl.
    rewrite spawned_commands_app. simpl.
    unfold chromePath_of in Hpath.
    destruct (JS.truthy (runtimeExecutable args)) as [path|]; [discriminate|].
    rewrite Hpath. reflexivity.
Qed.

Lemma signals_in_order_traced (es : list Effect) (w : World) :
  kills es = [] -> spawned_processes es = [] ->
  signals_in_order w -> signals_in_order (traced es w).
Proof.
  intros Hk Hs (A & B & C & D). unfold signals_in_order, traced. simpl.
  rewrite kills_app, spawned_processes_app, Hk, Hs, !app_nil_r. auto.
Qed.

Lemma perform_keeps_order (op : Operation) (w : World) :
  signals_in_order w -> signals_in_order (perform op w).
Proof.
  intros Hw. destruct op as [args| | |p err]; simpl.
  - destruct (chromePath_of args) as [chromePath|] eqn:Hpath.
    + rewrite (launch_found args chromePath w Hpath). cbn [world_of].
      destruct Hw as (A & B & C & D).
      unfold signals_in_order. cbn [_chromeProc spawned trace].
      rewrite kills_app, spawned_processes_app. simpl.
      rewrite app_nil_r.
      split; [|split; [|split]].
      * intros p E. inversion E; subst. split; [lia|].
        intros Hin. apply in_map_iff in Hin.
        destruct Hin as ([q s] & Eq & Hin). simpl in Eq. subst.
        apply B in Hin. lia.
      * intros p s Hin. destruct (B p s Hin). split; [assumption|lia].
      * exact C.
      * intros p. rewrite in_app_iff, D. simpl. lia.
    + rewrite (launch_not_found args w Hpath). cbn [world_of].
      apply signals_in_order_traced; auto.
  - rewrite disconnect_run. cbn [world_of].
    destruct Hw as (A & B & C & D).
    unfold signals_in_order. cbn [_chromeProc spawned trace].
    rewrite !kills_app, !spawned_processes_app.
    destruct (_chromeProc w) as [p|] eqn:E; simpl; rewrite ?app_nil_r.
    + destruct (A p eq_refl) as [Hlt Hnot].
      split; [discriminate|]. split; [|split].
      * intros q s Hin. apply in_app_or in Hin. destruct Hin as [Hin|Hin].
        -- apply B. exact Hin.
        -- destruct Hin as [Eq|[]]. inversion Eq; subst. auto.
      * rewrite map_app. simpl. apply NoDup_app; [exact C| |].
        -- constructor; [intros []|constructor].
        -- intros a Ha [Eq|[]]. subst. contradiction.
      * exact D.
    + split; [discriminate|]. auto.
  - destruct Hw as (A & B & C & D).
    unfold signals_in_order. simpl.
    rewrite kills_app, spawned_processes_app. simpl. rewrite !app_nil_r.
    split; [discriminate|]. auto.
  - unfold emit.
    destruct (emit_to_run (listeners w) p "error" err w) as (es & Hrun & Hk & Hs).
    rewrite Hrun. cbn [world_of]. apply signals_in_order_traced; auto.
Qed.

Lemma initial_world_in_order : signals_in_order initial_world.
Proof.
  unfold signals_in_order. simpl. split; [discriminate|].
  split; [intros p s []|]. split; [constructor|].
  intros p. split; [intros []|lia].
Qed.

Lemma perform_all_keeps_order (ops : list Operation) (w : World) :
  signals_in_order w -> signals_in_order (perform_all ops w).
Proof.
  unfold perform_all. revert w. induction ops as [|op ops IH]; intros w Hw;
    simpl; [exact Hw|].
  apply IH, perform_keeps_order, Hw.
Qed.

(** X18. The adapter only ever signals its own processes, with SIGINT,
    and each at most once.  Whatever sequence of launches, disconnects,
    clearEverything calls and child error events an adapter goes through
    from its initial state, every signal in its trace is SIGINT, was sent
    to a process the adapter had spawned, and no process was sent two;
    and the handle, when one is held, is a spawned process that has not
    been signalled. *)
Theorem signals_stay_in_order (ops : list Operation) :
  let w := perform_all ops initial_world in
  (forall p s, In (p, s) (kills (trace w)) ->
     s = "SIGINT" /\ In p (spawned_processes (trace w))) /\
  NoDup (map fst (kills (trace w))) /\
  (forall p, _chromeProc w = Some p ->
     In p (spawned_processes (trace w)) /\
     ~ In p (map fst (kills (trace w)))).
Proof.
  intros w.
  destruct (perform_all_keeps_order ops initial_world initial_world_in_order)
    as (A & B & C & D).
  fold w in A, B, C, D. split; [|split].
  - intros p s Hin. destruct (B p s Hin). split; [assumption|].
    apply D. assumption.
  - exact C.
  - intros p E. destruct (A p E). split; [apply D|]; assumption.
Qed.

End Lifecycle.

(** *** Sequences at an instance *)

Lemma launch_then_disconnect_witness :
  kills
    (trace
       (world_of
          (disconnect
             (world_of
                (disconnect
                   (world_of
                      (@launch linux_with_chrome example_args
                         initial_world))))))) =
  [(0, "SIGINT")].
Proof.
  exact (proj2 (proj2 (proj2 (proj2
           (@launch_then_disconnect linux_with_chrome example_args
              "/usr/bin/google-chrome" initial_world eq_refl))))).
Defined.

Lemma relaunch_orphans_first_process_witness :
  spawned_processes
    (trace
       (world_of
          (@launch linux_with_chrome url_args
             (world_of (@launch linux_with_chrome example_args
                          initial_world))))) = [0; 1] /\
  kills
    (trace
       (world_of
          (disconnect
             (world_of
                (disconnect
                   (world_of
                      (@launch linux_with_chrome url_args
                         (world_of (@launch linux_with_chrome example_args
                                      initial_world))))))))) =
  [(1, "SIGINT")].
Proof.
  destruct (@relaunch_orphans_first_process linux_with_chrome example_args
              url_args "/usr/bin/google-chrome" "/usr/bin/google-chrome"
              initial_world eq_refl eq_refl) as (Hs & _ & Hk).
  split; [exact Hs|exact Hk].
Defined.

Lemma error_listener_outlives_teardown_witness :
  exists w2,
    emit 0 "error" (JS.str "exited")
      (world_of (disconnect
                   (world_of (@launch linux_with_chrome example_args
                                initial_world)))) = Normal tt w2.
Proof.
  eexists.
  exact (proj1 (@error_listener_outlives_teardown linux_with_chrome
                  example_args "/usr/bin/google-chrome" (JS.str "exited")
                  initial_world initial_world_well_formed eq_refl)).
Defined.

Lemma attach_matches_spawn_witness :
  exists port url middle w',
    @launch linux_with_chrome url_args initial_world =
      Normal (returned_by (doAttach port url (Some "127.0.0.1"))) w' /\
    spawned_argv (trace w') =
      [("--remote-debugging-port=" ++ JS.number_to_string port)%string
       :: middle
       ++ match JS.truthy url with Some u => [u] | None => [] end].
Proof.
  destruct (@attach_matches_spawn linux_with_chrome url_args
              "/usr/bin/google-chrome" initial_world eq_refl)
    as (port & url & middle & w' & Hrun & Hargv & _).
  exists port, url, middle, w'. split; [exact Hrun|exact Hargv].
Defined.

Lemma url_is_passed_verbatim_witness :
  exists front w',
    @launch linux_with_chrome url_args initial_world =
      Normal (returned_by (doAttach 9222 (Some "http://localhost:8080/")
                             (Some "127.0.0.1"))) w' /\
    spawned_argv (trace w') = [front ++ ["http://localhost:8080/"]].
Proof.
  exact (@url_is_passed_verbatim linux_with_chrome url_args
           "/usr/bin/google-chrome" "http://localhost:8080/" initial_world
           eq_refl eq_refl eq_refl).
Defined.

End ChromeFacts.
